(** * obsidian-tk: the TODO/TK outline view ([src/view.ts])

    A shallow embedding of [TodoTkView]: the marker extractor
    [parseContent], the refresh entry point [update] and the polling
    change monitor installed by [setupEditorChangeListener].

    JavaScript strings are sequences of UTF-16 code units; a string is
    modelled as a [list N] of code units and every index or length is a
    [nat], as [String.prototype.length] counts code units. *)

From Stdlib Require Import NArith Ascii String.
From stdpp Require Import base decidable numbers option list strings pretty gmap sorting.

Local Open Scope N_scope.
Local Open Scope nat_scope.

(** ** Strings of code units *)

Abbreviation jsstring := (list N).

(** A string literal of the source, as code units. *)
Definition js (s : string) : jsstring :=
  (λ a, N_of_ascii a) <$> list_ascii_of_string s.

(** ** Character classes of the regular expressions *)

Definition inRange (lo hi c : N) : bool := ((lo <=? c) && (c <=? hi))%N.

(** [\w] without the [u] flag: [A-Za-z0-9_]. *)
Definition isWordChar (c : N) : bool :=
  inRange 48 57 c || inRange 65 90 c || (c =? 95)%N || inRange 97 122 c.

(** [\s], which is also the set [String.prototype.trim] strips:
    WhiteSpace and LineTerminator of ECMA-262. *)
Definition isWhiteSpace (c : N) : bool :=
  inRange 9 13 c || (c =? 32)%N || (c =? 160)%N || (c =? 5760)%N
  || inRange 8192 8202 c || (c =? 8232)%N || (c =? 8233)%N
  || (c =? 8239)%N || (c =? 8287)%N || (c =? 12288)%N || (c =? 65279)%N.

(** Canonicalize of the [i] flag without [u]: a code unit is replaced by
    its upper case, except that a code unit of 128 or more never maps
    below 128.  On the ASCII range that is the map of [a-z] to [A-Z];
    above it the image stays above 127, so against the ASCII letters of
    the two patterns it behaves as the identity. *)
Definition canonicalize (c : N) : N :=
  if inRange 97 122 c then (c - 32)%N else c.

(** ** [/\bTODO\b/gi] and [/\bTK\b/gi] *)

Definition wordAt (s : jsstring) (i : nat) : bool :=
  match s !! i with Some c => isWordChar c | None => false end.

Definition wordBefore (s : jsstring) (i : nat) : bool :=
  match i with O => false | S j => wordAt s j end.

(** The assertion [\b] at index [e]. *)
Definition isWordBoundary (s : jsstring) (e : nat) : bool :=
  xorb (wordBefore s e) (wordAt s e).

Fixpoint matchLiteral (pat : jsstring) (s : jsstring) (i : nat) : bool :=
  match pat with
  | [] => true
  | pc :: pat' =>
      match s !! i with
      | Some c => (canonicalize c =? canonicalize pc)%N && matchLiteral pat' s (S i)
      | None => false
      end
  end.

(** The whole pattern [\b pat \b] tried at index [i]. *)
Definition matchAt (pat : jsstring) (s : jsstring) (i : nat) : bool :=
  isWordBoundary s i && matchLiteral pat s i && isWordBoundary s (i + length pat).

(** [RegExpBuiltinExec] scans upwards from [lastIndex]; the candidates
    are [lastIndex .. length s]. *)
Fixpoint searchFrom (pat s : jsstring) (fuel i : nat) : option nat :=
  match fuel with
  | O => None
  | S fuel' => if matchAt pat s i then Some i else searchFrom pat s fuel' (S i)
  end.

Definition regexExec (pat s : jsstring) (lastIndex : nat) : option nat :=
  searchFrom pat s (S (length s) - lastIndex) lastIndex.

(** [while ((match = re.exec(line)) !== null) matches.push(match)]:
    after a match at [i] the global flag leaves [lastIndex] at the end of
    the match. *)
Fixpoint execLoop (pat s : jsstring) (fuel lastIndex : nat) : list nat :=
  match fuel with
  | O => []
  | S fuel' =>
      match regexExec pat s lastIndex with
      | None => []
      | Some i => i :: execLoop pat s fuel' (i + length pat)
      end
  end.

Definition allMatches (pat s : jsstring) : list nat :=
  execLoop pat s (S (length s)) 0.

(** ** [split], [trim], [join] *)

(** [content.split('\n')]. *)
Fixpoint splitLines (s : jsstring) : list jsstring :=
  match s with
  | [] => [[]]
  | c :: r =>
      if (c =? 10)%N then [] :: splitLines r
      else match splitLines r with
           | l :: ls => (c :: l) :: ls
           | [] => [[c]]
           end
  end.

Fixpoint dropWs (s : jsstring) : jsstring :=
  match s with
  | [] => []
  | c :: r => if isWhiteSpace c then dropWs r else s
  end.

(** [String.prototype.trim]. *)
Definition trim (s : jsstring) : jsstring :=
  reverse (dropWs (reverse (dropWs s))).

(** [s.split(/\s+/)]: the pieces between the maximal runs of white space.
    [insep] says that the previous code unit belonged to a separator,
    [cur] is the piece being read.  A separator at the very start or end
    leaves an empty piece there, and the empty string gives one empty
    piece. *)
Fixpoint splitWsFrom (insep : bool) (cur s : jsstring) : list jsstring :=
  match s with
  | [] => [cur]
  | c :: r =>
      if isWhiteSpace c
      then (if insep then splitWsFrom true [] r else cur :: splitWsFrom true [] r)
      else splitWsFrom false (cur ++ [c]) r
  end.

Definition splitWs (s : jsstring) : list jsstring := splitWsFrom false [] s.

(** [words.join(' ')]. *)
Fixpoint joinSp (ws : list jsstring) : jsstring :=
  match ws with
  | [] => []
  | [w] => w
  | w :: ws' => w ++ 32%N :: joinSp ws'
  end.

(** [words.slice(-3)]. *)
Definition sliceLast (n : nat) {A} (l : list A) : list A :=
  drop (length l - n) l.

(** ** The extractor *)

Inductive ItemType := TODO | TK.

Global Instance ItemType_eq_dec : EqDecision ItemType.
Proof. solve_decision. Defined.

Record TodoTkItem := mkItem {
  type : ItemType;
  text : jsstring;
  line : nat;
  position : nat   (* character position in the file *)
}.

Global Instance TodoTkItem_eq_dec : EqDecision TodoTkItem.
Proof. solve_decision. Defined.

Definition todoPattern : jsstring := js "TODO".
Definition tkPattern : jsstring := js "TK".

Definition pattern (k : ItemType) : jsstring :=
  match k with TODO => todoPattern | TK => tkPattern end.

Definition typeName (k : ItemType) : string :=
  match k with TODO => "TODO" | TK => "TK" end.

(** [`${lineIndex}-${startPos}-TODO`] and [`${lineIndex}-${startPos}-TK`]. *)
Definition positionKey (lineIndex startPos : nat) (k : ItemType) : string :=
  pretty lineIndex +:+ "-" +:+ pretty startPos +:+ "-" +:+ typeName k.

(** [for (let i = 0; i < lineIndex; i++) position += lines[i].length + 1;
     position += startPos]. *)
Definition absolutePosition (lines : list jsstring) (lineIndex startPos : nat) : nat :=
  foldl (λ position i, position + (length (default [] (lines !! i)) + 1))
        0 (seq 0 lineIndex)
  + startPos.

Definition todoText (line : jsstring) (startPos : nat) : jsstring :=
  let afterTodo := drop (startPos + 4) line in
  let words := take 10 (splitWs (trim afterTodo)) in
  joinSp words.

Definition tkText (line : jsstring) (startPos : nat) : jsstring :=
  let beforeTk := trim (take startPos line) in
  let words := splitWs beforeTk in
  joinSp (sliceLast 3 words).

Definition itemText (k : ItemType) : jsstring → nat → jsstring :=
  match k with TODO => todoText | TK => tkText end.

(** The state threaded through the callbacks of [parseContent]. *)
Record ParseState := mkParse {
  items : list TodoTkItem;
  seenPositions : gset string
}.

(** The body of [todoMatches.forEach] and of [tkMatches.forEach]. *)
Definition visitMatch (lines : list jsstring) (lineIndex : nat) (line : jsstring)
    (k : ItemType) (st : ParseState) (startPos : nat) : ParseState :=
  let positionKey := positionKey lineIndex startPos k in
  if decide (positionKey ∈ seenPositions st) then st
  else
    {| items := items st ++
         [ {| type := k; text := itemText k line startPos; line := lineIndex;
              position := absolutePosition lines lineIndex startPos |} ];
       seenPositions := {[ positionKey ]} ∪ seenPositions st |}.

(** The callback of [lines.forEach]. *)
Definition visitLine (lines : list jsstring) (st : ParseState)
    (entry : nat * jsstring) : ParseState :=
  let '(lineIndex, line) := entry in
  let todoMatches := allMatches todoPattern line in
  let st := foldl (visitMatch lines lineIndex line TODO) st todoMatches in
  let tkMatches := allMatches tkPattern line in
  foldl (visitMatch lines lineIndex line TK) st tkMatches.

Definition parseContent (content : jsstring) : list TodoTkItem :=
  let lines := splitLines content in
  items (foldl (visitLine lines) {| items := []; seenPositions := ∅ |}
               (imap pair lines)).

(** ** [JSON.stringify] of the compared projection

    The monitor compares
    [JSON.stringify(list.map(i => ({ text: i.text, line: i.line })))]. *)

Definition isHighSurrogate (c : N) : bool := inRange 55296 56319 c.
Definition isLowSurrogate (c : N) : bool := inRange 56320 57343 c.

Definition hexDigit (d : N) : N := if (d <? 10)%N then (48 + d)%N else (87 + d)%N.

(** UnicodeEscape: a backslash, [u] and four lower-case hexadecimal digits. *)
Definition unicodeEscape (c : N) : jsstring :=
  [92; 117; hexDigit ((c / 4096) mod 16); hexDigit ((c / 256) mod 16);
   hexDigit ((c / 16) mod 16); hexDigit (c mod 16)]%N.

(** One code unit that is not a surrogate, in QuoteJSONString. *)
Definition quoteUnit (c : N) : jsstring :=
  if (c =? 8)%N then [92; 98]%N
  else if (c =? 9)%N then [92; 116]%N
  else if (c =? 10)%N then [92; 110]%N
  else if (c =? 12)%N then [92; 102]%N
  else if (c =? 13)%N then [92; 114]%N
  else if (c =? 34)%N then [92; 34]%N
  else if (c =? 92)%N then [92; 92]%N
  else if (c <? 32)%N then unicodeEscape c
  else [c].

(** The code points of the string in order: a surrogate pair is copied,
    a lone surrogate is escaped. *)
Fixpoint quoteBody (s : jsstring) : jsstring :=
  match s with
  | [] => []
  | c :: r =>
      if isHighSurrogate c then
        match r with
        | d :: r' =>
            if isLowSurrogate d then c :: d :: quoteBody r'
            else unicodeEscape c ++ quoteBody r
        | [] => unicodeEscape c
        end
      else if isLowSurrogate c then unicodeEscape c ++ quoteBody r
      else quoteUnit c ++ quoteBody r
  end.

Definition quoteJSONString (s : jsstring) : jsstring :=
  34%N :: quoteBody s ++ [34%N].

(** [{"text":...,"line":...}] *)
Definition stringifyEntry (e : jsstring * nat) : jsstring :=
  js "{" ++ quoteJSONString (js "text") ++ js ":" ++ quoteJSONString e.1
  ++ js "," ++ quoteJSONString (js "line") ++ js ":" ++ js (pretty e.2) ++ js "}".

Fixpoint stringifyEntries (l : list (jsstring * nat)) : jsstring :=
  match l with
  | [] => []
  | [e] => stringifyEntry e
  | e :: l' => stringifyEntry e ++ 44%N :: stringifyEntries l'
  end.

Definition stringify (l : list (jsstring * nat)) : jsstring :=
  91%N :: stringifyEntries l ++ [93%N].

(** [i => ({ text: i.text, line: i.line })] *)
Definition textAndLine (i : TodoTkItem) : jsstring * nat := (text i, line i).

(** [itemsChanged] of the polling callback. *)
Definition itemsChanged (currentItems items : list TodoTkItem) : bool :=
  negb (length currentItems =? length items)
  || negb (bool_decide (stringify (textAndLine <$> currentItems)
                        = stringify (textAndLine <$> items))).

(** ** The view and its timers *)

Module TodoTkView.

(** What the host shows of a [MarkdownView] object: [editor] (with the
    text [getValue] returns) and [file] (with its [path]); either may be
    gone. *)
Record MarkdownView := mkMarkdownView {
  editor : option jsstring;
  file : option string
}.

(** The workspace: the [MarkdownView] objects by reference, the views of
    [getLeavesOfType('markdown')] and [getActiveViewOfType(MarkdownView)]. *)
Record Workspace := mkWorkspace {
  viewOf : nat → MarkdownView;
  markdownLeaves : list nat;
  activeMarkdownView : option nat
}.

(** The callbacks this file hands to [setInterval] and [setTimeout]. *)
Inductive Callback :=
  | PollTick (trackedFile : option string)  (* setInterval(..., 500) *)
  | DebouncedUpdate                         (* setTimeout(() => this.update(), 200) *)
  | OpenFirst                               (* setTimeout(..., 100) of onOpen *)
  | OpenRetry.                              (* setTimeout(..., 500) of onOpen *)

Record Timer := mkTimer { callback : Callback; due : nat }.

(** What [contentEl] holds. *)
Inductive Display :=
  | Blank                                   (* contentEl.empty() *)
  | NoActiveFile                            (* 'No active markdown file' *)
  | NoItemsFound                            (* 'No TODO or TK items found' *)
  | Outline (entries : list (ItemType * jsstring)).

(** The fields of the view, and the timer table of the host: [now] in
    milliseconds, the next free handle and the timers not yet cleared. *)
Record t := mkView {
  contentEl : option Display;
  items : list TodoTkItem;
  currentFile : option string;
  updateTimeout : option nat;
  currentMarkdownView : option nat;
  pollInterval : option nat;
  now : nat;
  nextHandle : nat;
  timers : gmap nat Timer
}.

Definition setContent (d : Display) (v : t) : t :=
  mkView (Some d) (items v) (currentFile v) (updateTimeout v)
         (currentMarkdownView v) (pollInterval v) (now v) (nextHandle v) (timers v).
Definition setItems (l : list TodoTkItem) (v : t) : t :=
  mkView (contentEl v) l (currentFile v) (updateTimeout v)
         (currentMarkdownView v) (pollInterval v) (now v) (nextHandle v) (timers v).
Definition setCurrentFile (f : option string) (v : t) : t :=
  mkView (contentEl v) (items v) f (updateTimeout v)
         (currentMarkdownView v) (pollInterval v) (now v) (nextHandle v) (timers v).
Definition setUpdateTimeout (h : option nat) (v : t) : t :=
  mkView (contentEl v) (items v) (currentFile v) h
         (currentMarkdownView v) (pollInterval v) (now v) (nextHandle v) (timers v).
Definition setCurrentMarkdownView (r : option nat) (v : t) : t :=
  mkView (contentEl v) (items v) (currentFile v) (updateTimeout v)
         r (pollInterval v) (now v) (nextHandle v) (timers v).
Definition setPollInterval (h : option nat) (v : t) : t :=
  mkView (contentEl v) (items v) (currentFile v) (updateTimeout v)
         (currentMarkdownView v) h (now v) (nextHandle v) (timers v).

(** [setTimeout] and [setInterval]: a fresh handle, the callback due
    [delay] milliseconds from now. *)
Definition setTimer (cb : Callback) (delay : nat) (v : t) : nat * t :=
  (nextHandle v,
   mkView (contentEl v) (items v) (currentFile v) (updateTimeout v)
          (currentMarkdownView v) (pollInterval v) (now v) (S (nextHandle v))
          (<[nextHandle v := mkTimer cb (now v + delay)]> (timers v))).

(** [clearTimeout] and [clearInterval]. *)
Definition clearTimer (h : nat) (v : t) : t :=
  mkView (contentEl v) (items v) (currentFile v) (updateTimeout v)
         (currentMarkdownView v) (pollInterval v) (now v) (nextHandle v)
         (delete h (timers v)).

(** [view.editor && view.file] *)
Definition validView (ws : Workspace) (r : nat) : bool :=
  bool_decide (is_Some (editor (viewOf ws r))) && bool_decide (is_Some (file (viewOf ws r))).

(** [if (this.pollInterval) { clearInterval(this.pollInterval);
     this.pollInterval = null; }] *)
Definition stopPolling (v : t) : t :=
  match pollInterval v with
  | Some h => setPollInterval None (clearTimer h v)
  | None => v
  end.

(** [if (this.updateTimeout) clearTimeout(this.updateTimeout);
     this.updateTimeout = setTimeout(() => this.update(), 200)] *)
Definition debounceUpdate (v : t) : t :=
  let v := match updateTimeout v with
           | Some h => clearTimer h v
           | None => v
           end in
  let '(h, v) := setTimer DebouncedUpdate 200 v in
  setUpdateTimeout (Some h) v.

(** The polling callback installed by [setupEditorChangeListener]. *)
Definition pollTick (ws : Workspace) (trackedFile : option string) (v : t) : t :=
  match currentMarkdownView v with
  | Some r =>
      match editor (viewOf ws r), file (viewOf ws r) with
      | Some currentContent, Some path =>
          if bool_decide (Some path = trackedFile ∧ trackedFile = currentFile v) then
            let currentItems := parseContent currentContent in
            if itemsChanged currentItems (items v) then debounceUpdate v else v
          else
            (* File changed, stop polling *)
            setCurrentMarkdownView None (stopPolling v)
      | _, _ => setCurrentMarkdownView None (stopPolling v)
      end
  | None => setCurrentMarkdownView None (stopPolling v)
  end.

Definition setupEditorChangeListener (ws : Workspace) (markdownView : nat) (v : t) : t :=
  let v := setCurrentMarkdownView (Some markdownView) v in
  let trackedFile := file (viewOf ws markdownView) in
  (* Clear any existing interval *)
  let v := match pollInterval v with
           | Some h => clearTimer h v
           | None => v
           end in
  let '(h, v) := setTimer (PollTick trackedFile) 500 v in
  setPollInterval (Some h) v.

(** Lines 76 to 109 of [update]: the stored view if it is still valid,
    else the active markdown view, else the first valid leaf.  The result
    is the local [markdownView]; the field is cleared when the stored
    view is found stale. *)
Definition resolveMarkdownView (ws : Workspace) (v : t) : option nat * t :=
  let stale := match currentMarkdownView v with
               | Some r => negb (validView ws r)
               | None => false
               end in
  let markdownView := if stale then None else currentMarkdownView v in
  let v := if stale then setCurrentMarkdownView None v else v in
  match markdownView with
  | Some r => (Some r, v)
  | None =>
      match markdownLeaves ws with
      | [] => (None, v)
      | _ :: _ =>
          let found :=
            match activeMarkdownView ws with
            | Some r => Some r
            | None => head (filter (λ r, validView ws r = true) (markdownLeaves ws))
            end in
          match found with
          | Some r => if validView ws r then (Some r, v) else (None, v)
          | None => (None, v)
          end
      end
  end.

Definition renderItems (l : list TodoTkItem) : Display :=
  match l with
  | [] => NoItemsFound
  | _ :: _ => Outline ((λ i, (type i, text i)) <$> l)
  end.

Definition update (ws : Workspace) (v : t) : t :=
  match contentEl v with
  | None => v
  | Some _ =>
      let v := setContent Blank v in
      let '(markdownView, v) := resolveMarkdownView ws v in
      match markdownView with
      | None =>
          let v := setContent NoActiveFile v in
          let v := setCurrentFile None v in
          setCurrentMarkdownView None v
      | Some r =>
          match editor (viewOf ws r), file (viewOf ws r) with
          | Some content, Some path =>
              (* markdownView.file?.path || null *)
              let v := setCurrentFile (if decide (path = EmptyString) then None else Some path) v in
              let v := setCurrentMarkdownView (Some r) v in
              let v := setItems (parseContent content) v in
              let v :=
                if bool_decide (pollInterval v = None)
                   || negb (bool_decide (Some path = currentFile v))
                then setupEditorChangeListener ws r (stopPolling v)
                else v in
              setContent (renderItems (items v)) v
          | _, _ =>
              let v := setContent NoActiveFile v in
              let v := setCurrentFile None v in
              setCurrentMarkdownView None v
          end
      end
  end.

(** [onOpen]: the container is created and the first refresh scheduled. *)
Definition onOpen (v : t) : t :=
  let v := setContent Blank v in
  (setTimer OpenFirst 100 v).2.

Definition onClose (v : t) : t :=
  let v := match updateTimeout v with
           | Some h => setUpdateTimeout None (clearTimer h v)
           | None => v
           end in
  let v := stopPolling v in
  setCurrentMarkdownView None v.

(** A timer handed to the host runs its callback when it is due; a
    timeout leaves the table as it fires, an interval is due again one
    period later. *)
Definition fire (ws : Workspace) (h : nat) (v : t) : t :=
  match timers v !! h with
  | None => v
  | Some tm =>
      match callback tm with
      | PollTick trackedFile =>
          let v := mkView (contentEl v) (items v) (currentFile v) (updateTimeout v)
                     (currentMarkdownView v) (pollInterval v) (now v) (nextHandle v)
                     (<[h := mkTimer (PollTick trackedFile) (now v + 500)]> (timers v)) in
          pollTick ws trackedFile v
      | DebouncedUpdate => update ws (clearTimer h v)
      | OpenFirst =>
          let v := update ws (clearTimer h v) in
          (setTimer OpenRetry 500 v).2
      | OpenRetry =>
          let v := clearTimer h v in
          match currentFile v with
          | None => update ws v
          | Some _ => v
          end
      end
  end.

(** [d] milliseconds pass. *)
Definition advance (d : nat) (v : t) : t :=
  mkView (contentEl v) (items v) (currentFile v) (updateTimeout v)
         (currentMarkdownView v) (pollInterval v) (now v + d) (nextHandle v)
         (timers v).

(** The view as constructed: no container yet, nothing tracked, no timer. *)
Definition initial : t :=
  mkView None [] None None None None 0 1 ∅.

(** What can happen to the view: the host calls [onOpen], [onClose] or
    [update] (the plugin's [updateView] does on its events), a due timer
    fires, time passes.  The workspace is the host's and may be any at
    each step. *)
Inductive step : t → t → Prop :=
  | step_open v : step v (onOpen v)
  | step_close v : step v (onClose v)
  | step_update ws v : step v (update ws v)
  | step_fire ws h tm v :
      timers v !! h = Some tm → due tm ≤ now v → step v (fire ws h v)
  | step_time d v : step v (advance d v).

Definition reachable (v : t) : Prop := rtc step initial v.

(** The monitors that are running, and the debounced refreshes that are
    pending. *)
Definition isMonitor (tm : Timer) : bool :=
  match callback tm with PollTick _ => true | _ => false end.
Definition isDebounced (tm : Timer) : bool :=
  match callback tm with DebouncedUpdate => true | _ => false end.

Definition monitors (v : t) : gmap nat Timer := filter (λ e, isMonitor e.2 = true) (timers v).
Definition debounced (v : t) : gmap nat Timer := filter (λ e, isDebounced e.2 = true) (timers v).

(** The polling callback finds the tracked file [path] in the stored
    view and its items differ from the rendered ones. *)
Definition detects (ws : Workspace) (path : string) (v : t) : Prop :=
  ∃ r currentContent,
    currentMarkdownView v = Some r
    ∧ editor (viewOf ws r) = Some currentContent
    ∧ file (viewOf ws r) = Some path
    ∧ currentFile v = Some path
    ∧ itemsChanged (parseContent currentContent) (items v) = true.

(** [n] polls in a row that each detect a change, with time passing
    between them and nothing else happening: no timeout fires. *)
Inductive burst (path : string) (v0 : t) : nat → t → Prop :=
  | burst_one ws :
      detects ws path v0 → burst path v0 1 (pollTick ws (Some path) v0)
  | burst_more n v d ws :
      burst path v0 n v → detects ws path (advance d v) →
      burst path v0 (S n) (pollTick ws (Some path) (advance d v)).

(** A workspace with one tab; the tab shows the note [path] with text
    [content]. *)
Definition oneTab (content : jsstring) (path : string) : Workspace :=
  mkWorkspace (λ _, mkMarkdownView (Some content) (Some path)) [0] (Some 0).

(** A workspace with no markdown view left. *)
Definition noTab : Workspace :=
  mkWorkspace (λ _, mkMarkdownView None None) [] None.

(** The panel was opened and refreshed while the tab showed [a.md]. *)
Definition tracking : t := update (oneTab (js "TODO x") "a.md") (onOpen initial).

(** The tab of [a.md] (view 0) was closed and a tab showing [b.md]
    (view 1) is the active one. *)
Definition switched : Workspace :=
  mkWorkspace (λ r, if decide (r = 0) then mkMarkdownView None None
                    else mkMarkdownView (Some (js "TK y")) (Some "b.md"))
              [1] (Some 1).

(** [update] runs after the switch, as the plugin has it on
    [active-leaf-change] and [file-open]. *)
Definition retargeted : t := update switched tracking.

(** The text of [a.md] gained a [TK]. *)
Definition edited : Workspace := oneTab (js "TODO x TK") "a.md".

(** Two polls see the edit while no refresh has run: the first at 500 ms,
    the second 100 ms later, inside the 200 ms of the first. *)
Definition polledTwice : t :=
  pollTick edited (Some "a.md")
    (advance 100 (pollTick edited (Some "a.md") (advance 500 tracking))).

(** The panel opened on [a.md] and let its timers run: the first refresh
    at 100 ms (timer 1) starts the monitor (timer 2) and the retry
    (timer 3); at 600 ms the monitor polls, finds nothing new and is due
    again at 1100 ms, and the retry finds a current file and does
    nothing.  Only the monitor is left. *)
Definition settled : t :=
  fire (oneTab (js "TODO x") "a.md") 3
    (fire (oneTab (js "TODO x") "a.md") 2
       (advance 500
          (fire (oneTab (js "TODO x") "a.md") 1 (advance 100 (onOpen initial))))).

(** The text is edited and the monitor, due at 1100 ms, sees it: a
    debounced refresh (timer 4) is pending. *)
Definition detected : t := fire edited 2 (advance 500 settled).

(** What reaches the panel: the plugin's handler of the vault's [modify]
    event ([main.ts]: [this.updateView()], which calls [update] on the
    panel's view at once), a timer of the view, which the host runs only
    once it is due, and time passing. *)
Inductive Event :=
  | Modify (ws : Workspace)
  | TimerRuns (ws : Workspace) (h : nat)
  | Wait (d : nat).

Definition isDue (h : nat) (v : t) : bool :=
  match timers v !! h with
  | Some tm => bool_decide (due tm ≤ now v)
  | None => false
  end.

Definition handle (e : Event) (v : t) : t :=
  match e with
  | Modify ws => update ws v
  | TimerRuns ws h => if isDue h v then fire ws h v else v
  | Wait d => advance d v
  end.

(** How often [update] is called while the event is handled: once by
    the [modify] handler and by the callbacks that call it, never by the
    polling callback. *)
Definition updateCalls (e : Event) (v : t) : nat :=
  match e with
  | Modify _ => 1
  | TimerRuns _ h =>
      if isDue h v then
        match callback <$> timers v !! h with
        | Some DebouncedUpdate => 1
        | Some OpenFirst => 1
        | Some OpenRetry => match currentFile v with None => 1 | Some _ => 0 end
        | Some (PollTick _) => 0
        | None => 0
        end
      else 0
  | Wait _ => 0
  end.

(** The state after the events, and the number of calls of [update]. *)
Fixpoint run (es : list Event) (v : t) : t * nat :=
  match es with
  | [] => (v, 0)
  | e :: es' =>
      let '(v', n) := run es' (handle e v) in (v', updateCalls e v + n)
  end.

(** Handles are fresh, the only monitor is the timer [pollInterval] names
    and the only debounced refresh is the timer [updateTimeout] names. *)
Record Inv (v : t) : Prop := mkInv {
  inv_fresh : ∀ h tm, timers v !! h = Some tm → h < nextHandle v;
  inv_poll_fresh : ∀ h, pollInterval v = Some h → h < nextHandle v;
  inv_update_fresh : ∀ h, updateTimeout v = Some h → h < nextHandle v;
  inv_monitor : ∀ h tm, timers v !! h = Some tm →
    (isMonitor tm = true ↔ pollInterval v = Some h);
  inv_debounced : ∀ h tm, timers v !! h = Some tm →
    (isDebounced tm = true ↔ updateTimeout v = Some h)
}.

(** The calls [jumpToLine] makes on the host, in order. *)
Inductive EditorCall :=
  | SetActiveLeaf (leaf : nat)              (* workspace.setActiveLeaf(leaf, { focus: true }) *)
  | SetCursor (view ln ch : nat)            (* editor.setCursor(item.line, 0) *)
  | ScrollIntoView (view ln : nat)          (* editor.scrollIntoView(..., true) *)
  | Focus (view : nat).                     (* editor.focus() *)

(** [jumpToLine]: [vault] holds the paths [getAbstractFileByPath] finds;
    a leaf is named by its view, as in [markdownLeaves].  The view's own
    fields are not written. *)
Definition jumpToLine (vault : gset string) (ws : Workspace) (v : t)
    (item : TodoTkItem) : list EditorCall :=
  match currentFile v with
  | None => []
  | Some cf =>
      if decide (cf = EmptyString) then []
      else if decide (cf ∈ vault) then
        (* leaves.find(leaf => view.file?.path === this.currentFile) *)
        match head (filter (λ r, file (viewOf ws r) = Some cf) (markdownLeaves ws)) with
        | None => []
        | Some targetView =>
            match editor (viewOf ws targetView) with
            | None => []
            | Some _ =>
                [SetActiveLeaf targetView;
                 SetCursor targetView (line item) 0;
                 ScrollIntoView targetView (line item);
                 Focus targetView]
            end
        end
      else []
  end.

(** The view an editor call is made on. *)
Definition callTarget (c : EditorCall) : nat :=
  match c with
  | SetActiveLeaf r | SetCursor r _ _ | ScrollIntoView r _ | Focus r => r
  end.

(** The delay each callback is scheduled with. *)
Definition delayOf (cb : Callback) : nat :=
  match cb with
  | PollTick _ => 500
  | DebouncedUpdate => 200
  | OpenFirst => 100
  | OpenRetry => 500
  end.

(** [pollInterval] names a timer that is there and is a monitor, and no
    timer is due further ahead than its delay. *)
Record Live (v : t) : Prop := mkLive {
  live_poll : ∀ h, pollInterval v = Some h →
    ∃ tm, timers v !! h = Some tm ∧ isMonitor tm = true;
  live_due : ∀ h tm, timers v !! h = Some tm → due tm ≤ now v + delayOf (callback tm)
}.

(** What is displayed is the rendering of [items], [items] is the
    output of the extractor on some text, and [currentFile] is never the
    empty path. *)
Record Shown (v : t) : Prop := mkShown {
  shown_outline : ∀ entries, contentEl v = Some (Outline entries) →
    items v ≠ [] ∧ entries = (λ i, (type i, text i)) <$> items v;
  shown_none : contentEl v = Some NoItemsFound → items v = [];
  shown_items : ∃ content, items v = parseContent content;
  shown_file : currentFile v ≠ Some EmptyString
}.

(** Two tabs show [a.md]; only the second still has its editor. *)
Definition twoTabs : Workspace :=
  mkWorkspace (λ r, if decide (r = 0) then mkMarkdownView None (Some "a.md")
                    else mkMarkdownView (Some (js "TODO x")) (Some "a.md"))
              [0; 1] (Some 0).

(** The condition under which the polling callback goes on sampling:
    the stored view has its editor and file, and the file is the one the
    monitor was started for and the one the view tracks. *)
Definition tracks (ws : Workspace) (trackedFile : option string) (v : t) : Prop :=
  ∃ r content path,
    currentMarkdownView v = Some r
    ∧ editor (viewOf ws r) = Some content
    ∧ file (viewOf ws r) = Some path
    ∧ trackedFile = Some path
    ∧ currentFile v = Some path.

End TodoTkView.

(** ** Vocabulary of the properties *)

(** A decimal numeral: digits only. *)
Fixpoint allDigits (s : string) : bool :=
  match s with
  | EmptyString => true
  | String a r => inRange 48 57 (N_of_ascii a) && allDigits r
  end.

(** The item pushed for a match of kind [k] at [startPos] of line
    [lineIndex]. *)
Definition itemAt (lines : list jsstring) (lineIndex : nat) (line : jsstring)
    (k : ItemType) (startPos : nat) : TodoTkItem :=
  {| type := k; text := itemText k line startPos; line := lineIndex;
     position := absolutePosition lines lineIndex startPos |}.

(** The items of one line: those of its [TODO] matches, then those of
    its [TK] matches. *)
Definition lineItems (lines : list jsstring) (lineIndex : nat) (line : jsstring)
    : list TodoTkItem :=
  (itemAt lines lineIndex line TODO <$> allMatches todoPattern line)
  ++ (itemAt lines lineIndex line TK <$> allMatches tkPattern line).

(** Every key seen so far belongs to a line before [n]. *)
Definition seenBelow (n : nat) (st : ParseState) : Prop :=
  ∀ key, key ∈ seenPositions st → ∃ l p k, key = positionKey l p k ∧ l < n.

(** The start of line [lineIndex] as the specification words it: the sum
    of [length + 1] over the lines before it. *)
Definition lineStart (lines : list jsstring) (lineIndex : nat) : nat :=
  sum_list_with (λ l, length l + 1) (take lineIndex lines).

(** [a] is emitted before [b]: an earlier line; on one line a [TODO]
    before a [TK]; within one kind the match further left. *)
Definition emittedBefore (a b : TodoTkItem) : Prop :=
  line a < line b
  ∨ (line a = line b
     ∧ ((type a = TODO ∧ type b = TK) ∨ (type a = type b ∧ position a < position b))).

(** The triple the specification names: line index, offset of the match
    within its line, kind. *)
Definition inlineOffset (lines : list jsstring) (it : TodoTkItem) : nat :=
  position it - absolutePosition lines (line it) 0.

Definition matchTriple (lines : list jsstring) (it : TodoTkItem) : nat * nat * ItemType :=
  (line it, inlineOffset lines it, type it).

(** The neighbours of a token as the specification words the boundary:
    alphanumeric characters, without the underscore of [\w]. *)
Definition isAlphanumeric (c : N) : bool :=
  inRange 48 57 c || inRange 65 90 c || inRange 97 122 c.

Definition alnumAt (s : jsstring) (i : nat) : bool :=
  match s !! i with Some c => isAlphanumeric c | None => false end.

Definition alnumBefore (s : jsstring) (i : nat) : bool :=
  match i with O => false | S j => alnumAt s j end.

(** An item of kind [k] is emitted for offset [p] of line [lineIndex]. *)
Definition emits (content : jsstring) (lineIndex : nat) (k : ItemType) (p : nat) : Prop :=
  ∃ it, it ∈ parseContent content ∧ type it = k ∧ line it = lineIndex
        ∧ position it = lineStart (splitLines content) lineIndex + p.

(** The whitespace-delimited words of a string, as the specification
    speaks of them: the maximal runs of code units that are not white
    space, in order.  [cur] is the run being read. *)
Fixpoint wordsFrom (cur s : jsstring) : list jsstring :=
  match s with
  | [] => match cur with [] => [] | _ :: _ => [cur] end
  | c :: r =>
      if isWhiteSpace c
      then match cur with [] => wordsFrom [] r | _ :: _ => cur :: wordsFrom [] r end
      else wordsFrom (cur ++ [c]) r
  end.

Definition words (s : jsstring) : list jsstring := wordsFrom [] s.

(** No white space at the start, and none at the end. *)
Definition startOk (s : jsstring) : Prop :=
  match head s with Some c => isWhiteSpace c = false | None => True end.

Definition endOk (s : jsstring) : Prop :=
  match last s with Some c => isWhiteSpace c = false | None => True end.

(** A word: not empty and free of white space. *)
Definition isWord (w : jsstring) : Prop :=
  w ≠ [] ∧ Forall (λ c, isWhiteSpace c = false) w.

(** A reader for [quoteBody], used to show that [JSON.stringify] loses
    nothing: the value of a hexadecimal digit first. *)
Definition hexValue (h : N) : N := if (h <? 58)%N then (h - 48)%N else (h - 87)%N.

(** The code unit a two-character escape stands for. *)
Definition unescape (e : N) : N :=
  if (e =? 98)%N then 8%N
  else if (e =? 116)%N then 9%N
  else if (e =? 110)%N then 10%N
  else if (e =? 102)%N then 12%N
  else if (e =? 114)%N then 13%N
  else e.

(** Reads a quoted body up to its closing quote: the string and what
    follows the quote. *)
Fixpoint unquote (s : jsstring) : option (jsstring * jsstring) :=
  match s with
  | [] => None
  | c :: r =>
      if (c =? 34)%N then Some ([], r)
      else if (c =? 92)%N then
        match r with
        | [] => None
        | e :: r1 =>
            if (e =? 117)%N then
              match r1 with
              | h3 :: h2 :: h1 :: h0 :: r2 =>
                  match unquote r2 with
                  | Some (t, rest) =>
                      Some ((4096 * hexValue h3 + 256 * hexValue h2
                             + 16 * hexValue h1 + hexValue h0)%N :: t, rest)
                  | None => None
                  end
              | _ => None
              end
            else
              match unquote r1 with
              | Some (t, rest) => Some (unescape e :: t, rest)
              | None => None
              end
        end
      else
        match unquote r with
        | Some (t, rest) => Some (c :: t, rest)
        | None => None
        end
  end.

(** What follows an entry in the output: the closing bracket, or a
    comma and the next entries. *)
Definition afterEntry (l : list (jsstring * nat)) : jsstring :=
  match l with
  | [] => [93%N]
  | _ :: _ => 44%N :: stringifyEntries l ++ [93%N]
  end.

(** An item of a second document, seen from a document that has
    [dl] lines and [dp] code units before it. *)
Definition shiftItem (dl dp : nat) (it : TodoTkItem) : TodoTkItem :=
  {| type := type it; text := text it; line := dl + line it;
     position := dp + position it |}.

(** The string and the item with every ASCII letter in upper case. *)
Definition upperCase (s : jsstring) : jsstring := canonicalize <$> s.

Definition upperItem (it : TodoTkItem) : TodoTkItem :=
  {| type := type it; text := upperCase (text it); line := line it;
     position := position it |}.

Local Ltac eqb_false c :=
  repeat match goal with
         | |- context [(c =? ?k)%N] => rewrite (proj2 (N.eqb_neq c k)) by lia
         end.

Local Ltac short_escape E Hs :=
  apply N.eqb_eq in E; subst; simpl; rewrite Hs; reflexivity.

(** * Properties *)

(** ** Decimal numerals and the position keys *)

Lemma pretty_N_char_digit x : inRange 48 57 (N_of_ascii (pretty_N_char x)) = true.
Proof. unfold pretty_N_char. by repeat case_match. Qed.

Lemma pretty_N_go_digits x s : allDigits s = true → allDigits (pretty_N_go x s) = true.
Proof.
  revert s. induction (N.lt_wf_0 x) as [x _ IH]; intros s Hs.
  assert (x = 0 ∨ 0 < x)%N as [->|?] by lia.
  - by rewrite pretty_N_go_0.
  - rewrite pretty_N_go_step by done. apply IH.
    + by apply N.div_lt.
    + simpl. by rewrite pretty_N_char_digit.
Qed.

Lemma pretty_nat_digits (n : nat) : allDigits (pretty n) = true.
Proof.
  unfold pretty, pretty_nat, pretty, pretty_N.
  case_decide; [done|]. by apply pretty_N_go_digits.
Qed.

(** Two numerals followed by a character that is no digit agree as soon
    as the two strings do. *)
Lemma digits_sep_inj (a a' b b' : string) (c : ascii) :
  inRange 48 57 (N_of_ascii c) = false →
  allDigits a = true → allDigits a' = true →
  a +:+ String c b = a' +:+ String c b' → a = a' ∧ b = b'.
Proof.
  intros Hc. revert a'. induction a as [|x a IH]; intros [|y a'] Ha Ha' Heq;
    simpl in *.
  - by injection Heq as ->.
  - injection Heq as <- _. apply andb_prop in Ha' as [Hy _]. congruence.
  - injection Heq as -> _. apply andb_prop in Ha as [Hx _]. congruence.
  - injection Heq as -> Heq.
    apply andb_prop in Ha as [_ Ha]. apply andb_prop in Ha' as [_ Ha'].
    by destruct (IH a' Ha Ha' Heq) as [-> ->].
Qed.

Lemma typeName_inj k k' : typeName k = typeName k' → k = k'.
Proof. by destruct k, k'. Qed.

Lemma positionKey_inj l p k l' p' k' :
  positionKey l p k = positionKey l' p' k' → l = l' ∧ p = p' ∧ k = k'.
Proof.
  unfold positionKey. intros H.
  apply digits_sep_inj in H as [Hl H]; auto using pretty_nat_digits.
  apply digits_sep_inj in H as [Hp H]; auto using pretty_nat_digits.
  apply (inj pretty) in Hl. apply (inj pretty) in Hp.
  auto using typeName_inj.
Qed.

(** ** The matching loop *)

Section Scan.
Variable pat : jsstring.
Hypothesis pat_nonempty : 0 < length pat.
Hypothesis pat_no_overlap : ∀ s i j,
  matchLiteral pat s i = true → i < j < i + length pat →
  matchLiteral pat s j = false.

Lemma matchLiteral_in_range s i : matchLiteral pat s i = true → i < length s.
Proof.
  destruct pat as [|pc pat']; simpl in *; [lia|].
  destruct (s !! i) eqn:E; [|done]. intros _. by eapply lookup_lt_Some.
Qed.

Lemma matchAt_literal s i : matchAt pat s i = true → matchLiteral pat s i = true.
Proof. unfold matchAt. intros H. by repeat (apply andb_prop in H as [H ?]). Qed.

Lemma matchAt_in_range s i : matchAt pat s i = true → i < length s.
Proof. intros H. by apply matchLiteral_in_range, matchAt_literal. Qed.

Lemma searchFrom_Some s fuel i p :
  searchFrom pat s fuel i = Some p →
  i ≤ p < i + fuel ∧ matchAt pat s p = true
  ∧ ∀ q, i ≤ q < p → matchAt pat s q = false.
Proof.
  revert i. induction fuel as [|fuel IH]; intros i; simpl; [done|].
  destruct (matchAt pat s i) eqn:E.
  - intros [= <-]. repeat split; [lia..|done|lia].
  - intros H. apply IH in H as (? & ? & Hq). repeat split; [lia..|done|].
    intros q ?. destruct (decide (q = i)) as [->|]; [done|]. apply Hq. lia.
Qed.

Lemma searchFrom_None s fuel i :
  searchFrom pat s fuel i = None →
  ∀ q, i ≤ q < i + fuel → matchAt pat s q = false.
Proof.
  revert i. induction fuel as [|fuel IH]; intros i; simpl; [lia|].
  destruct (matchAt pat s i) eqn:E; [done|].
  intros H q ?. destruct (decide (q = i)) as [->|]; [done|].
  apply (IH _ H). lia.
Qed.

(** The loop returns exactly the indices at or after [lastIndex] where
    the pattern matches, provided the fuel covers the rest of the line. *)
Lemma execLoop_spec s fuel lastIndex p :
  length s < lastIndex + fuel →
  p ∈ execLoop pat s fuel lastIndex ↔ lastIndex ≤ p ∧ matchAt pat s p = true.
Proof.
  revert lastIndex. induction fuel as [|fuel IH]; intros lastIndex Hfuel; simpl.
  - split; [by intros ?%elem_of_nil|]. intros [? ?%matchAt_in_range]. lia.
  - unfold regexExec. destruct (searchFrom _ _ _ _) as [i|] eqn:E.
    + apply searchFrom_Some in E as (Hi & Hm & Hbefore).
      rewrite elem_of_cons, IH by lia. split.
      * intros [->|[? ?]]; split; auto; lia.
      * intros [Hp Hpm].
        destruct (decide (p = i)) as [|Hne]; [by left|right].
        split; [|done].
        destruct (decide (p < i)); [rewrite Hbefore in Hpm by lia; done|].
        destruct (decide (p < i + length pat)); [|lia].
        apply matchAt_literal in Hm, Hpm.
        rewrite (pat_no_overlap s i p) in Hpm by (done || lia). done.
    + split; [by intros ?%elem_of_nil|]. intros [Hp Hpm].
      pose proof (matchAt_in_range _ _ Hpm).
      rewrite (searchFrom_None _ _ _ E) in Hpm by lia. done.
Qed.

Lemma execLoop_lower s fuel lastIndex p :
  p ∈ execLoop pat s fuel lastIndex → lastIndex ≤ p.
Proof.
  revert lastIndex. induction fuel as [|fuel IH]; intros lastIndex; simpl.
  - by intros ?%elem_of_nil.
  - unfold regexExec. destruct (searchFrom _ _ _ _) as [i|] eqn:E.
    + apply searchFrom_Some in E as (Hi & _ & _).
      intros [->|H%IH]%elem_of_cons; lia.
    + by intros ?%elem_of_nil.
Qed.

(** The matches come out left to right. *)
Lemma execLoop_sorted s fuel lastIndex :
  StronglySorted lt (execLoop pat s fuel lastIndex).
Proof.
  revert lastIndex. induction fuel as [|fuel IH]; intros lastIndex; simpl.
  - constructor.
  - destruct (regexExec pat s lastIndex) as [i|]; constructor; [apply IH|].
    apply Forall_forall. intros q Hq%execLoop_lower. lia.
Qed.

Lemma allMatches_spec s p : p ∈ allMatches pat s ↔ matchAt pat s p = true.
Proof. unfold allMatches. rewrite execLoop_spec by lia. intuition lia. Qed.

Lemma allMatches_sorted s : StronglySorted lt (allMatches pat s).
Proof. apply execLoop_sorted. Qed.
End Scan.

Lemma pattern_nonempty k : 0 < length (pattern k).
Proof. destruct k; vm_compute; lia. Qed.

Lemma todoPattern_units : todoPattern = [84; 79; 68; 79]%N.
Proof. reflexivity. Qed.

Lemma tkPattern_units : tkPattern = [84; 75]%N.
Proof. reflexivity. Qed.

Lemma canonicalize_upper c :
  inRange 65 90 c = true → canonicalize c = c.
Proof.
  unfold canonicalize, inRange. intros H.
  apply andb_prop in H as [?%N.leb_le ?%N.leb_le].
  destruct (97 <=? c)%N eqn:E1; [apply N.leb_le in E1; lia|done].
Qed.

(** [/TODO/i] at [i]: four code units that are T, O, D, O up to case. *)
Lemma matchLiteral_TODO s i :
  matchLiteral todoPattern s i = true ↔
  ∃ a b c d, s !! i = Some a ∧ s !! S i = Some b ∧ s !! S (S i) = Some c
    ∧ s !! S (S (S i)) = Some d
    ∧ canonicalize a = 84%N ∧ canonicalize b = 79%N
    ∧ canonicalize c = 68%N ∧ canonicalize d = 79%N.
Proof.
  rewrite todoPattern_units. cbn [matchLiteral].
  rewrite !canonicalize_upper by done. split.
  - intros H.
    repeat (case_match; [|done]; apply andb_prop in H as [?%N.eqb_eq H]).
    repeat eexists; eauto.
  - intros (a & b & c & d & -> & -> & -> & -> & -> & -> & -> & ->). done.
Qed.

Lemma matchLiteral_TK s i :
  matchLiteral tkPattern s i = true ↔
  ∃ a b, s !! i = Some a ∧ s !! S i = Some b
    ∧ canonicalize a = 84%N ∧ canonicalize b = 75%N.
Proof.
  rewrite tkPattern_units. cbn [matchLiteral].
  rewrite !canonicalize_upper by done. split.
  - intros H.
    repeat (case_match; [|done]; apply andb_prop in H as [?%N.eqb_eq H]).
    repeat eexists; eauto.
  - intros (a & b & -> & -> & -> & ->). done.
Qed.

Lemma pattern_no_overlap k s i j :
  matchLiteral (pattern k) s i = true → i < j < i + length (pattern k) →
  matchLiteral (pattern k) s j = false.
Proof.
  destruct k; unfold pattern.
  - change (length todoPattern) with 4. intros Hi Hj.
    apply not_true_is_false. intros Hm.
    apply matchLiteral_TODO in Hi as (a & b & c & d & ? & ? & ? & ? & ? & ? & ? & ?).
    apply matchLiteral_TODO in Hm as (a' & _ & _ & _ & ? & _ & _ & _ & ? & _).
    assert (j = S i ∨ j = S (S i) ∨ j = S (S (S i))) as [-> | [-> | ->]] by lia;
      congruence.
  - change (length tkPattern) with 2. intros Hi Hj.
    apply not_true_is_false. intros Hm.
    apply matchLiteral_TK in Hi as (a & b & ? & ? & ? & ?).
    apply matchLiteral_TK in Hm as (a' & _ & ? & _ & ? & _).
    assert (j = S i) as -> by lia. congruence.
Qed.

Lemma matches_spec k s p : p ∈ allMatches (pattern k) s ↔ matchAt (pattern k) s p = true.
Proof. apply allMatches_spec; [apply pattern_nonempty | apply pattern_no_overlap]. Qed.

Lemma matches_sorted k s : StronglySorted lt (allMatches (pattern k) s).
Proof. apply allMatches_sorted, pattern_nonempty. Qed.

(** ** The shape of the extractor's output *)

Lemma visitMatch_fresh lines lineIndex line k st p :
  positionKey lineIndex p k ∉ seenPositions st →
  visitMatch lines lineIndex line k st p
  = {| items := items st ++ [itemAt lines lineIndex line k p];
       seenPositions := {[positionKey lineIndex p k]} ∪ seenPositions st |}.
Proof. intros H. unfold visitMatch. by rewrite decide_False. Qed.

Lemma foldl_visitMatch lines lineIndex line k ps st :
  NoDup ps →
  (∀ p, p ∈ ps → positionKey lineIndex p k ∉ seenPositions st) →
  items (foldl (visitMatch lines lineIndex line k) st ps)
    = items st ++ (itemAt lines lineIndex line k <$> ps)
  ∧ ∀ key, key ∈ seenPositions (foldl (visitMatch lines lineIndex line k) st ps)
         ↔ key ∈ seenPositions st ∨ ∃ p, p ∈ ps ∧ key = positionKey lineIndex p k.
Proof.
  revert st. induction ps as [|p ps IH]; intros st Hnd Hfresh; simpl.
  - split; [by rewrite app_nil_r|]. intros key. split; [auto|].
    intros [?|(? & ?%elem_of_nil & _)]; done.
  - apply NoDup_cons in Hnd as [Hp Hnd].
    rewrite visitMatch_fresh by (apply Hfresh; left).
    destruct (IH {| items := items st ++ [itemAt lines lineIndex line k p];
                    seenPositions := {[positionKey lineIndex p k]} ∪ seenPositions st |})
      as [Hitems Hseen]; [done| |].
    + intros q Hq. simpl. rewrite elem_of_union, elem_of_singleton.
      intros [Heq|Hin].
      * apply positionKey_inj in Heq as (_ & -> & _). done.
      * by apply (Hfresh q); [right|].
    + split.
      * rewrite Hitems. simpl. by rewrite <-app_assoc.
      * intros key. rewrite Hseen. simpl.
        rewrite elem_of_union, elem_of_singleton. split.
        -- intros [[->|?]|(q & Hq & ->)]; [right; exists p; split; [left|done]|by left|].
           right. exists q. split; [by right|done].
        -- intros [?|(q & [->|?]%elem_of_cons & ->)]; [by left; right|by left; left|].
           right. by exists q.
Qed.

Lemma sorted_lt_NoDup (l : list nat) : StronglySorted lt l → NoDup l.
Proof.
  induction 1 as [|x l _ IH Hall]; constructor; [|done].
  intros Hx. rewrite Forall_forall in Hall. specialize (Hall _ Hx). lia.
Qed.

Lemma visitLine_spec lines n line st :
  seenBelow n st →
  items (visitLine lines st (n, line)) = items st ++ lineItems lines n line
  ∧ seenBelow (S n) (visitLine lines st (n, line)).
Proof.
  intros Hbelow. unfold visitLine.
  destruct (foldl_visitMatch lines n line TODO (allMatches todoPattern line) st)
    as [Htodo Hseen1].
  { apply sorted_lt_NoDup, (matches_sorted TODO). }
  { intros p _ Hin. apply Hbelow in Hin as (l & q & k & Heq & Hl).
    apply positionKey_inj in Heq as (-> & _). lia. }
  set (st1 := foldl (visitMatch lines n line TODO) st (allMatches todoPattern line)) in *.
  destruct (foldl_visitMatch lines n line TK (allMatches tkPattern line) st1)
    as [Htk Hseen2].
  { apply sorted_lt_NoDup, (matches_sorted TK). }
  { intros p _ Hin. apply Hseen1 in Hin as [Hin|(q & _ & Heq)].
    - apply Hbelow in Hin as (l & q & k & Heq & Hl).
      apply positionKey_inj in Heq as (-> & _). lia.
    - by apply positionKey_inj in Heq as (_ & _ & ?). }
  split.
  - rewrite Htk, Htodo. unfold lineItems. by rewrite <-app_assoc.
  - intros key Hin.
    apply Hseen2 in Hin as [Hin|(q & _ & ->)]; [|by exists n, q, TK; split; [|lia]].
    apply Hseen1 in Hin as [Hin|(q & _ & ->)]; [|by exists n, q, TODO; split; [|lia]].
    apply Hbelow in Hin as (l & q & k & -> & Hl). exists l, q, k. split; [done|lia].
Qed.

Lemma foldl_visitLine lines ls n st :
  seenBelow n st →
  items (foldl (visitLine lines) st (imap (λ i l, (n + i, l)) ls))
    = items st ++ concat (imap (λ i l, lineItems lines (n + i) l) ls).
Proof.
  revert n st. induction ls as [|l ls IH]; intros n st Hbelow.
  - simpl. by rewrite app_nil_r.
  - rewrite !imap_cons. cbn [foldl concat].
    rewrite Nat.add_0_r.
    destruct (visitLine_spec lines n l st Hbelow) as [Hitems Hnext].
    rewrite (imap_ext _ (λ i l, (S n + i, l))) by (intros; simpl; f_equal; lia).
    rewrite IH by done. rewrite Hitems, <-app_assoc. do 3 f_equal.
    apply imap_ext. intros; simpl; f_equal; lia.
Qed.

(** The output is, line after line, the items of the [TODO] matches of
    the line followed by the items of its [TK] matches: no match is
    dropped by the [seenPositions] test. *)
Lemma parseContent_lines content :
  parseContent content
  = concat (imap (λ i l, lineItems (splitLines content) i l) (splitLines content)).
Proof.
  unfold parseContent.
  rewrite (foldl_visitLine _ (splitLines content) 0); [done|].
  intros key Hin. by apply not_elem_of_empty in Hin.
Qed.

Lemma elem_of_concat {A} (x : A) (ls : list (list A)) :
  x ∈ concat ls ↔ ∃ l, x ∈ l ∧ l ∈ ls.
Proof.
  induction ls as [|l ls IH]; simpl.
  - split; [by intros ?%elem_of_nil|by intros (? & _ & ?%elem_of_nil)].
  - rewrite elem_of_app, IH. split.
    + intros [?|(l' & ? & ?)]; [exists l; split; [done|left]|].
      exists l'. split; [done|by right].
    + intros (l' & ? & [->|?]%elem_of_cons); [by left|right; eauto].
Qed.

Lemma elem_of_parseContent content it :
  it ∈ parseContent content ↔
  ∃ lineIndex line k p,
    splitLines content !! lineIndex = Some line
    ∧ matchAt (pattern k) line p = true
    ∧ it = itemAt (splitLines content) lineIndex line k p.
Proof.
  rewrite parseContent_lines, elem_of_concat. split.
  - intros (its & Hit & Hits).
    apply elem_of_lookup_imap in Hits as (i & l & -> & Hl).
    unfold lineItems in Hit. apply elem_of_app in Hit as [Hit|Hit];
      apply list_elem_of_fmap in Hit as (p & -> & Hp).
    + exists i, l, TODO, p. by rewrite <-matches_spec.
    + exists i, l, TK, p. by rewrite <-matches_spec.
  - intros (i & l & k & p & Hl & Hm & ->).
    exists (lineItems (splitLines content) i l). split.
    + apply (matches_spec k) in Hm. unfold lineItems. rewrite elem_of_app.
      destruct k; [left|right]; by apply list_elem_of_fmap_2.
    + apply elem_of_lookup_imap. eauto.
Qed.

(** ** Absolute positions *)

Lemma absolutePosition_lineStart lines lineIndex p :
  lineIndex ≤ length lines →
  absolutePosition lines lineIndex p = lineStart lines lineIndex + p.
Proof.
  unfold absolutePosition, lineStart. intros Hle. f_equal.
  induction lineIndex as [|n IH]; [done|].
  rewrite seq_S, foldl_app. simpl. rewrite IH by lia.
  destruct (lookup_lt_is_Some_2 lines n) as [l Hl]; [lia|].
  rewrite (take_S_r _ _ _ Hl), sum_list_with_app, Hl. simpl. lia.
Qed.

Lemma absolutePosition_add lines lineIndex p :
  absolutePosition lines lineIndex p = absolutePosition lines lineIndex 0 + p.
Proof. unfold absolutePosition. lia. Qed.

Lemma splitLines_nonempty s : splitLines s ≠ [].
Proof. destruct s as [|c r]; simpl; [done|]. by repeat case_match. Qed.

(** The text from the start of a line on is the line, then either the
    end of the text or the terminator of the line. *)
Lemma splitLines_drop s lineIndex l :
  splitLines s !! lineIndex = Some l →
  ∃ rest, drop (lineStart (splitLines s) lineIndex) s = l ++ rest.
Proof.
  unfold lineStart.
  revert lineIndex l. induction s as [|c r IH]; intros lineIndex l; simpl.
  - destruct lineIndex as [|n]; [|done]. intros [= <-]. by exists [].
  - destruct (c =? 10)%N eqn:Ec.
    + destruct lineIndex as [|n]; simpl.
      * intros [= <-]. by exists (c :: r).
      * intros Hl. destruct (IH _ _ Hl) as [rest Hrest]. by exists rest.
    + destruct (splitLines r) as [|l0 ls] eqn:Er; [by destruct (splitLines_nonempty r)|].
      destruct lineIndex as [|n]; simpl.
      * intros [= <-]. destruct (IH 0 l0 eq_refl) as [rest Hrest].
        simpl in Hrest. rewrite drop_0 in Hrest. exists rest. by rewrite Hrest.
      * intros Hl. destruct (IH (S n) l Hl) as [rest Hrest].
        simpl in Hrest. exists rest. by rewrite <-Hrest.
Qed.

Lemma splitLines_lookup s lineIndex l p j :
  splitLines s !! lineIndex = Some l → p + j < length l →
  s !! (lineStart (splitLines s) lineIndex + p + j) = l !! (p + j).
Proof.
  intros Hl Hlt. destruct (splitLines_drop _ _ _ Hl) as [rest Hrest].
  rewrite <-Nat.add_assoc, <-lookup_drop, Hrest. by apply lookup_app_l.
Qed.

(** [matchLiteral] only reads the code units it compares. *)
Lemma matchLiteral_ext pat s s' i i' :
  (∀ j, j < length pat → s' !! (i' + j) = s !! (i + j)) →
  matchLiteral pat s' i' = matchLiteral pat s i.
Proof.
  revert i i'. induction pat as [|pc pat IH]; intros i i' H; simpl; [done|].
  pose proof (H 0 ltac:(simpl; lia)) as H0. rewrite !Nat.add_0_r in H0. rewrite H0.
  destruct (s !! i); [|done]. f_equal. apply IH. intros j Hj.
  rewrite !Nat.add_succ_l, <-!Nat.add_succ_r. apply H. simpl. lia.
Qed.

(** ** Order of emission *)

Lemma elem_of_lineItems lines i l it :
  it ∈ lineItems lines i l ↔
  ∃ k p, matchAt (pattern k) l p = true ∧ it = itemAt lines i l k p.
Proof.
  unfold lineItems. rewrite elem_of_app, !list_elem_of_fmap. split.
  - intros [(p & -> & Hp)|(p & -> & Hp)]; [exists TODO, p|exists TK, p];
      by rewrite <-matches_spec.
  - intros ([] & p & Hp%matches_spec & ->); [left|right]; eauto.
Qed.

Lemma lineItems_sorted lines i l : StronglySorted emittedBefore (lineItems lines i l).
Proof.
  apply StronglySorted_app_2.
  - intros a b (p & -> & _)%list_elem_of_fmap (q & -> & _)%list_elem_of_fmap.
    right. simpl. auto.
  - eapply StronglySorted_fmap, (matches_sorted TODO).
    intros p q Hpq. right. simpl. unfold absolutePosition.
    split; [done|right; split; [done|lia]].
  - eapply StronglySorted_fmap, (matches_sorted TK).
    intros p q Hpq. right. simpl. unfold absolutePosition.
    split; [done|right; split; [done|lia]].
Qed.

Lemma lines_sorted lines ls n :
  StronglySorted emittedBefore (concat (imap (λ i l, lineItems lines (n + i) l) ls)).
Proof.
  revert n. induction ls as [|l ls IH]; intros n; [constructor|].
  rewrite imap_cons. cbn [concat]. apply StronglySorted_app_2.
  - intros a b (k & p & _ & ->)%elem_of_lineItems (its & Hb & Hits)%elem_of_concat.
    apply elem_of_lookup_imap in Hits as (i & l' & -> & _).
    apply elem_of_lineItems in Hb as (k' & q & _ & ->).
    left. simpl. lia.
  - apply lineItems_sorted.
  - rewrite (imap_ext _ (λ i l, lineItems lines (S n + i) l)); [apply IH|].
    intros; simpl; f_equal; lia.
Qed.

Lemma emittedBefore_irrefl a : ¬ emittedBefore a a.
Proof. intros [?|[_ [[? ?]|[_ ?]]]]; (lia || congruence). Qed.

Lemma sorted_emitted_NoDup l : StronglySorted emittedBefore l → NoDup l.
Proof.
  induction 1 as [|x l _ IH Hall]; constructor; [|done].
  intros Hx. rewrite Forall_forall in Hall.
  by apply (emittedBefore_irrefl x), Hall.
Qed.

Lemma matchTriple_itemAt lines i l k p :
  matchTriple lines (itemAt lines i l k p) = (i, p, k).
Proof.
  unfold matchTriple, inlineOffset. simpl.
  rewrite (absolutePosition_add lines i p). do 2 f_equal. lia.
Qed.

(** ** Whole-word matching *)

Lemma canonicalize_word c x :
  canonicalize c = x → inRange 65 90 x = true → isWordChar c = true.
Proof.
  unfold canonicalize, isWordChar. destruct (inRange 97 122 c) eqn:E.
  - intros _ _. by rewrite !orb_true_r.
  - intros -> ->. by rewrite orb_true_r.
Qed.

Lemma wordAt_Some s i c : s !! i = Some c → wordAt s i = isWordChar c.
Proof. unfold wordAt. by intros ->. Qed.

(** A match of the literal begins and ends with a word character. *)
Lemma matchLiteral_word_ends k s p :
  matchLiteral (pattern k) s p = true →
  wordAt s p = true ∧ wordBefore s (p + length (pattern k)) = true.
Proof.
  destruct k; unfold pattern.
  - intros (a & b & c & d & Ha & _ & _ & Hd & Hca & _ & _ & Hcd)%matchLiteral_TODO.
    change (length todoPattern) with 4.
    replace (p + 4) with (S (S (S (S p)))) by lia. simpl.
    rewrite (wordAt_Some _ _ _ Ha), (wordAt_Some _ _ _ Hd).
    split; eapply canonicalize_word; eauto.
  - intros (a & b & Ha & Hb & Hca & Hcb)%matchLiteral_TK.
    change (length tkPattern) with 2.
    replace (p + 2) with (S (S p)) by lia. simpl.
    rewrite (wordAt_Some _ _ _ Ha), (wordAt_Some _ _ _ Hb).
    split; eapply canonicalize_word; eauto.
Qed.

(** [\b] on both sides of the literal: no word character just before it
    and none just after it. *)
Lemma matchAt_iff k s p :
  matchAt (pattern k) s p = true ↔
  matchLiteral (pattern k) s p = true
  ∧ wordBefore s p = false ∧ wordAt s (p + length (pattern k)) = false.
Proof.
  unfold matchAt, isWordBoundary. split.
  - intros H. apply andb_prop in H as [H H3]. apply andb_prop in H as [H1 H2].
    destruct (matchLiteral_word_ends k s p H2) as [Hfirst Hlast].
    rewrite Hfirst in H1. rewrite Hlast in H3.
    split; [done|]. split.
    + by destruct (wordBefore s p).
    + by destruct (wordAt s (p + length (pattern k))).
  - intros (H2 & Hb & Ha).
    destruct (matchLiteral_word_ends k s p H2) as [Hfirst Hlast].
    by rewrite H2, Hb, Ha, Hfirst, Hlast.
Qed.

Lemma lookup_splitLines_le content lineIndex l :
  splitLines content !! lineIndex = Some l → lineIndex ≤ length (splitLines content).
Proof. intros H%lookup_lt_Some. lia. Qed.

Lemma emits_iff content lineIndex lineText k p :
  splitLines content !! lineIndex = Some lineText →
  emits content lineIndex k p ↔ matchAt (pattern k) lineText p = true.
Proof.
  intros Hl. unfold emits. split.
  - intros (it & (i & l & k' & q & Hl' & Hm & ->)%elem_of_parseContent & Hk & Hi & Hp).
    simpl in *. subst i k'. rewrite Hl in Hl'. injection Hl' as <-.
    rewrite absolutePosition_lineStart in Hp by eauto using lookup_splitLines_le.
    by replace p with q by lia.
  - intros Hm. exists (itemAt (splitLines content) lineIndex lineText k p).
    split; [apply elem_of_parseContent; eauto 8|].
    simpl. rewrite absolutePosition_lineStart by eauto using lookup_splitLines_le.
    done.
Qed.

(** ** Snippets as words *)

Lemma dropWs_split s :
  ∃ pre, s = pre ++ dropWs s ∧ Forall (λ c, isWhiteSpace c = true) pre.
Proof.
  induction s as [|c r (pre & Hs & Hpre)]; simpl; [by exists []|].
  destruct (isWhiteSpace c) eqn:E.
  - exists (c :: pre). split; [simpl; congruence|by constructor].
  - by exists [].
Qed.

Lemma startOk_dropWs s : startOk (dropWs s).
Proof.
  induction s as [|c r IH]; simpl; [done|].
  by destruct (isWhiteSpace c) eqn:E.
Qed.

Lemma dropWs_startOk s : startOk s → dropWs s = s.
Proof. destruct s as [|c r]; simpl; [done|]. unfold startOk. simpl. by intros ->. Qed.

Lemma endOk_trim s : endOk (trim s).
Proof. unfold endOk, trim. rewrite last_reverse. apply startOk_dropWs. Qed.

Lemma startOk_trim s : startOk (trim s).
Proof.
  unfold startOk, trim. rewrite head_reverse.
  destruct (dropWs_split (reverse (dropWs s))) as (pre & Hs & _).
  destruct (last (dropWs (reverse (dropWs s)))) as [c|] eqn:E; [|done].
  assert (last (reverse (dropWs s)) = Some c) as Hlast.
  { rewrite Hs, last_app, E. done. }
  rewrite last_reverse in Hlast.
  pose proof (startOk_dropWs s) as Hok. unfold startOk in Hok. by rewrite Hlast in Hok.
Qed.

Lemma trim_id s : startOk s → endOk s → trim s = s.
Proof.
  intros Hs He. unfold trim. rewrite (dropWs_startOk s Hs).
  rewrite dropWs_startOk, reverse_involutive; [done|].
  unfold startOk. by rewrite head_reverse.
Qed.

Lemma wordsFrom_ws cur w :
  Forall (λ c, isWhiteSpace c = true) w →
  wordsFrom cur w = match cur with [] => [] | _ :: _ => [cur] end.
Proof.
  intros Hw. revert cur. induction Hw as [|c w Hc _ IH]; intros cur; simpl; [done|].
  rewrite Hc. destruct cur; by rewrite IH.
Qed.

Lemma wordsFrom_app_ws cur s w :
  Forall (λ c, isWhiteSpace c = true) w → wordsFrom cur (s ++ w) = wordsFrom cur s.
Proof.
  intros Hw. revert cur. induction s as [|c r IH]; intros cur; simpl.
  - by apply wordsFrom_ws.
  - destruct (isWhiteSpace c); [destruct cur|]; by rewrite IH.
Qed.

Lemma words_ws_app w s :
  Forall (λ c, isWhiteSpace c = true) w → words (w ++ s) = words s.
Proof.
  unfold words. induction 1 as [|c w Hc _ IH]; simpl; [done|]. by rewrite Hc.
Qed.

Lemma words_dropWs s : words (dropWs s) = words s.
Proof.
  destruct (dropWs_split s) as (pre & Hs & Hpre).
  set (u := dropWs s) in *. clearbody u. subst s. by rewrite words_ws_app.
Qed.

Lemma words_trim s : words (trim s) = words s.
Proof.
  rewrite <-(words_dropWs s). unfold trim.
  destruct (dropWs_split (reverse (dropWs s))) as (pre & Hr & Hpre).
  set (x := dropWs (reverse (dropWs s))) in *. clearbody x.
  apply (f_equal reverse) in Hr. rewrite reverse_involutive, reverse_app in Hr.
  rewrite Hr. unfold words. rewrite wordsFrom_app_ws; [done|].
  by apply Forall_reverse.
Qed.

Lemma wordsFrom_nonnil cur s : cur ≠ [] → wordsFrom cur s ≠ [].
Proof.
  revert cur. induction s as [|c r IH]; intros cur Hcur; simpl.
  - by destruct cur.
  - destruct (isWhiteSpace c); [by destruct cur|]. apply IH. by destruct cur.
Qed.

(** Between a first and a last code unit that are no white space,
    [split(/\s+/)] returns the words. *)
Lemma splitWsFrom_words insep cur s :
  endOk s →
  match insep return Prop with
  | true => cur = [] ∧ s ≠ []
  | false => cur ≠ [] ∨ (s ≠ [] ∧ startOk s)
  end →
  splitWsFrom insep cur s = wordsFrom cur s.
Proof.
  revert insep cur. induction s as [|c r IH]; intros insep cur Hend Hpre; simpl.
  - destruct insep; [by destruct Hpre|]. destruct Hpre as [?|[? _]]; [|done].
    by destruct cur.
  - assert (endOk r) as Hendr.
    { unfold endOk in *. rewrite last_cons in Hend. by destruct (last r). }
    destruct (isWhiteSpace c) eqn:Ec.
    + assert (r ≠ []) as Hr.
      { intros ->. unfold endOk in Hend. simpl in Hend. congruence. }
      destruct insep.
      * destruct Hpre as [-> _]. by apply IH.
      * destruct Hpre as [Hcur|[_ Hs]]; [|unfold startOk in Hs; simpl in Hs; congruence].
        destruct cur; [done|]. f_equal. by apply IH.
    + apply IH; [done|]. left. by destruct cur.
Qed.

Lemma splitWs_trim s :
  splitWs (trim s) = match words s with [] => [[]] | _ :: _ => words s end.
Proof.
  rewrite <-(words_trim s). unfold splitWs.
  pose proof (startOk_trim s) as Hstart. pose proof (endOk_trim s) as Hend.
  destruct (trim s) as [|c r] eqn:E; [done|].
  rewrite splitWsFrom_words by (done || by right).
  fold (words (c :: r)). destruct (words (c :: r)) eqn:Ew; [|done].
  unfold words in Ew. simpl in Ew.
  unfold startOk in Hstart. simpl in Hstart. rewrite Hstart in Ew.
  by apply wordsFrom_nonnil in Ew.
Qed.

(** The two snippets in terms of the words of the text beside the token. *)
Lemma todoText_words line p :
  todoText line p = joinSp (take 10 (words (drop (p + 4) line))).
Proof.
  unfold todoText. rewrite splitWs_trim.
  by destruct (words (drop (p + 4) line)).
Qed.

Lemma tkText_words line p :
  tkText line p = joinSp (sliceLast 3 (words (take p line))).
Proof.
  unfold tkText. rewrite splitWs_trim.
  by destruct (words (take p line)).
Qed.

Lemma wordsFrom_isWord cur s :
  Forall (λ c, isWhiteSpace c = false) cur → Forall isWord (wordsFrom cur s).
Proof.
  revert cur. induction s as [|c r IH]; intros cur Hcur; simpl.
  - destruct cur; [constructor|]. constructor; [by split|constructor].
  - destruct (isWhiteSpace c) eqn:Ec.
    + destruct cur; [by apply IH|]. constructor; [by split|by apply IH].
    + apply IH. apply Forall_app. split; [done|]. by constructor.
Qed.

Lemma words_isWord s : Forall isWord (words s).
Proof. by apply wordsFrom_isWord. Qed.

Lemma isWord_startOk w : isWord w → startOk w ∧ endOk w ∧ w ≠ [].
Proof.
  intros [Hne Hall]. unfold startOk, endOk. split; [|split; [|done]].
  - destruct w; [done|]. simpl. by apply Forall_cons in Hall as [? _].
  - destruct (last w) as [c|] eqn:E; [|done].
    apply last_Some in E as [w' ->]. by apply Forall_app in Hall as [_ [? _]%Forall_cons].
Qed.

(** Words joined by single spaces start and end with no white space. *)
Lemma joinSp_ok ws : Forall isWord ws → startOk (joinSp ws) ∧ endOk (joinSp ws).
Proof.
  induction 1 as [|w ws Hw Hws [IHs IHe]]; [done|].
  destruct (isWord_startOk w Hw) as (Hs & He & Hne).
  destruct ws as [|w' ws]; [done|].
  change (joinSp (w :: w' :: ws)) with (w ++ 32%N :: joinSp (w' :: ws)). split.
  - unfold startOk in *. rewrite head_app. by destruct w.
  - unfold endOk in *. rewrite last_app, last_cons.
    destruct (last (joinSp (w' :: ws))) eqn:E; [done|].
    apply last_None in E. inversion Hws as [|? ? Hw' _]; subst.
    destruct (isWord_startOk w' Hw') as (_ & _ & Hne').
    destruct ws; simpl in E; [done|]. by destruct w'.
Qed.

Lemma trim_joinSp ws : Forall isWord ws → trim (joinSp ws) = joinSp ws.
Proof. intros [? ?]%joinSp_ok. by apply trim_id. Qed.

(** ** [JSON.stringify] can be read back *)

Lemma hexValue_hexDigit d : (d < 16)%N → hexValue (hexDigit d) = d.
Proof.
  intros H. unfold hexValue, hexDigit.
  destruct (d <? 10)%N eqn:E.
  - apply N.ltb_lt in E. destruct (48 + d <? 58)%N eqn:E2; [lia|].
    apply N.ltb_ge in E2. lia.
  - apply N.ltb_ge in E.
    destruct (87 + d <? 58)%N eqn:E2; [apply N.ltb_lt in E2; lia|]. lia.
Qed.

Lemma hex_digits_value c :
  (c < 65536)%N →
  (4096 * ((c / 4096) mod 16) + 256 * ((c / 256) mod 16)
   + 16 * ((c / 16) mod 16) + c mod 16 = c)%N.
Proof.
  intros H.
  pose proof (N.div_mod c 16 ltac:(lia)) as H0.
  pose proof (N.div_mod (c / 16) 16 ltac:(lia)) as H1.
  pose proof (N.div_mod (c / 16 / 16) 16 ltac:(lia)) as H2.
  rewrite !N.Div0.div_div in *.
  change (16 * 16)%N with 256%N in *. change (256 * 16)%N with 4096%N in *.
  assert (c / 4096 < 16)%N by (apply N.Div0.div_lt_upper_bound; lia).
  rewrite (N.mod_small (c / 4096) 16) by done.
  lia.
Qed.

Lemma unquote_unicodeEscape c s t rest :
  (c < 65536)%N → unquote s = Some (t, rest) →
  unquote (unicodeEscape c ++ s) = Some (c :: t, rest).
Proof.
  intros Hc Hs. unfold unicodeEscape. cbn [app unquote].
  change (92 =? 34)%N with false. change (92 =? 92)%N with true.
  change (117 =? 117)%N with true. cbv iota. rewrite Hs.
  rewrite !hexValue_hexDigit by (apply N.mod_lt; lia).
  by rewrite hex_digits_value.
Qed.

Lemma inRange_spec lo hi c : inRange lo hi c = true ↔ (lo ≤ c ≤ hi)%N.
Proof. unfold inRange. rewrite andb_true_iff, !N.leb_le. done. Qed.

Lemma unquote_literal c s t rest :
  c ≠ 34%N → c ≠ 92%N → unquote s = Some (t, rest) →
  unquote (c :: s) = Some (c :: t, rest).
Proof.
  intros H1%N.eqb_neq H2%N.eqb_neq Hs. simpl. by rewrite H1, H2, Hs.
Qed.

Lemma unquote_quoteUnit c s t rest :
  unquote s = Some (t, rest) → unquote (quoteUnit c ++ s) = Some (c :: t, rest).
Proof.
  intros Hs. unfold quoteUnit.
  destruct (c =? 8)%N eqn:E8; [short_escape E8 Hs|].
  destruct (c =? 9)%N eqn:E9; [short_escape E9 Hs|].
  destruct (c =? 10)%N eqn:E10; [short_escape E10 Hs|].
  destruct (c =? 12)%N eqn:E12; [short_escape E12 Hs|].
  destruct (c =? 13)%N eqn:E13; [short_escape E13 Hs|].
  destruct (c =? 34)%N eqn:E34; [short_escape E34 Hs|].
  destruct (c =? 92)%N eqn:E92; [short_escape E92 Hs|].
  destruct (c <? 32)%N eqn:E.
  - apply N.ltb_lt in E. apply unquote_unicodeEscape; [lia|done].
  - apply unquote_literal; [by apply N.eqb_neq..|done].
Qed.

(** Reading back what [QuoteJSONString] wrote gives the string. *)
Lemma unquote_quoteBody t rest :
  unquote (quoteBody t ++ 34%N :: rest) = Some (t, rest).
Proof.
  remember (length t) as n eqn:Hn. revert t Hn.
  induction (lt_wf n) as [n _ IH]. intros t ->.
  destruct t as [|c r]; [done|]. cbn [quoteBody].
  assert (∀ r', length r' < length (c :: r) →
            unquote (quoteBody r' ++ 34%N :: rest) = Some (r', rest)) as IH'.
  { intros r' Hlt. by eapply IH. }
  assert (unquote (quoteBody r ++ 34%N :: rest) = Some (r, rest)) as IHr.
  { apply IH'. simpl. lia. }
  destruct (isHighSurrogate c) eqn:Ehi.
  - apply inRange_spec in Ehi.
    destruct r as [|d r'].
    + rewrite (unquote_unicodeEscape c (34%N :: rest) [] rest); [done|lia|done].
    + destruct (isLowSurrogate d) eqn:Elo.
      * apply inRange_spec in Elo. cbn [app].
        apply unquote_literal; [lia..|]. apply unquote_literal; [lia..|].
        apply IH'. simpl. lia.
      * rewrite <-app_assoc. apply unquote_unicodeEscape; [lia|done].
  - destruct (isLowSurrogate c) eqn:Elo.
    + apply inRange_spec in Elo.
      rewrite <-app_assoc. apply unquote_unicodeEscape; [lia|done].
    + rewrite <-app_assoc. by apply unquote_quoteUnit.
Qed.

Lemma quoteJSONString_inj t t' rest rest' :
  quoteJSONString t ++ rest = quoteJSONString t' ++ rest' → t = t' ∧ rest = rest'.
Proof.
  unfold quoteJSONString. rewrite <-!app_comm_cons, <-!app_assoc. simpl.
  intros [= H]. apply (f_equal unquote) in H.
  rewrite !unquote_quoteBody in H. by injection H.
Qed.

Lemma js_inj s s' : js s = js s' → s = s'.
Proof.
  unfold js. intros H.
  assert (list_ascii_of_string s = list_ascii_of_string s') as Hl.
  { revert H. generalize (list_ascii_of_string s) (list_ascii_of_string s').
    induction l as [|a l IH]; intros [|b l']; simpl; try done.
    intros [= Hab Hl]. f_equal; [|by apply IH].
    by rewrite <-(ascii_N_embedding a), Hab, ascii_N_embedding. }
  by rewrite <-(string_of_list_ascii_of_string s), Hl, string_of_list_ascii_of_string.
Qed.

Lemma js_digits s : allDigits s = true → Forall (λ c, inRange 48 57 c = true) (js s).
Proof.
  induction s as [|a s IH]; simpl; [constructor|].
  intros [Ha Hs]%andb_prop. constructor; [done|by apply IH].
Qed.

Lemma sep_inj {A} (P : A → Prop) (a a' b b' : list A) c :
  ¬ P c → Forall P a → Forall P a' →
  a ++ c :: b = a' ++ c :: b' → a = a' ∧ b = b'.
Proof.
  intros Hc Ha. revert a'. induction Ha as [|x a Hx Ha IH]; intros a' Ha' Heq.
  - destruct Ha' as [|y a' Hy _]; simpl in *; [by injection Heq|].
    injection Heq as <- _. done.
  - destruct Ha' as [|y a' Hy Ha']; simpl in *.
    + injection Heq as -> _. done.
    + injection Heq as -> Heq. by destruct (IH _ Ha' Heq) as [-> ->].
Qed.

Lemma stringifyEntry_inj e e' rest rest' :
  stringifyEntry e ++ rest = stringifyEntry e' ++ rest' → e = e' ∧ rest = rest'.
Proof.
  destruct e as [t n], e' as [t' n']. unfold stringifyEntry. simpl fst. simpl snd.
  rewrite <-!app_assoc. intros H.
  apply app_inv_head in H. apply app_inv_head in H. apply app_inv_head in H.
  apply quoteJSONString_inj in H as [-> H].
  apply app_inv_head in H. apply app_inv_head in H. apply app_inv_head in H.
  change (js "}" ++ rest) with (125%N :: rest) in H.
  change (js "}" ++ rest') with (125%N :: rest') in H.
  apply (sep_inj (λ c, inRange 48 57 c = true)) in H as [Hn ->];
    [|done|apply js_digits, pretty_nat_digits..].
  apply js_inj, (inj pretty) in Hn. by subst.
Qed.

Lemma stringifyEntries_cons e l :
  stringifyEntries (e :: l) ++ [93%N] = stringifyEntry e ++ afterEntry l.
Proof. destruct l; simpl; [done|]. by rewrite <-app_assoc. Qed.

Lemma stringifyEntry_head e : ∃ r, stringifyEntry e = 123%N :: r.
Proof. unfold stringifyEntry. change (js "{") with [123%N]. simpl. eauto. Qed.

Lemma stringifyEntries_inj l l' :
  stringifyEntries l ++ [93%N] = stringifyEntries l' ++ [93%N] → l = l'.
Proof.
  revert l'. induction l as [|e l IH]; intros [|e' l'].
  - done.
  - rewrite stringifyEntries_cons. destruct (stringifyEntry_head e') as [r ->]. done.
  - rewrite stringifyEntries_cons. destruct (stringifyEntry_head e) as [r ->]. done.
  - rewrite !stringifyEntries_cons. intros [-> H]%stringifyEntry_inj. f_equal.
    destruct l as [|x l], l' as [|x' l']; simpl in H; try done.
    injection H as H. by apply IH.
Qed.

Lemma stringify_inj l l' : stringify l = stringify l' → l = l'.
Proof. unfold stringify. intros [= H]. by apply stringifyEntries_inj. Qed.

Lemma itemsChanged_false currentItems items :
  itemsChanged currentItems items = false
  ↔ textAndLine <$> currentItems = textAndLine <$> items.
Proof.
  unfold itemsChanged. rewrite orb_false_iff, !negb_false_iff.
  rewrite Nat.eqb_eq, bool_decide_eq_true. split.
  - intros [_ H]. by apply stringify_inj.
  - intros H. split; [|by rewrite H].
    by rewrite <-(length_fmap textAndLine currentItems), H, length_fmap.
Qed.

(** * The extractor *)

(** C1. Every emitted item stands on a match of its token in its line,
    [position] is the sum of [length + 1] over the lines before that line
    plus the offset of the match in the line, and the code units of
    [content] from [position] on are those of the matched token. *)
Theorem position_indexes_token content it :
  it ∈ parseContent content →
  ∃ lineText p,
    splitLines content !! line it = Some lineText
    ∧ matchAt (pattern (type it)) lineText p = true
    ∧ position it = sum_list_with (λ l, length l + 1) (take (line it) (splitLines content)) + p
    ∧ matchLiteral (pattern (type it)) content (position it) = true
    ∧ ∀ j, j < length (pattern (type it)) →
           content !! (position it + j) = lineText !! (p + j).
Proof.
  intros (i & l & k & p & Hl & Hm & ->)%elem_of_parseContent. simpl.
  exists l, p. split; [done|]. split; [done|].
  rewrite absolutePosition_lineStart by eauto using lookup_splitLines_le.
  split; [done|].
  pose proof (proj1 (matchAt_iff k l p) Hm) as (Hlit & _ & _).
  destruct (matchLiteral_word_ends k l p Hlit) as [_ Hend].
  assert (p + length (pattern k) ≤ length l) as Hlen.
  { pose proof (pattern_nonempty k).
    destruct (length (pattern k)) as [|n] eqn:En; [lia|].
    rewrite Nat.add_succ_r in Hend. simpl in Hend. unfold wordAt in Hend.
    destruct (l !! (p + n)) eqn:E; [|done]. apply lookup_lt_Some in E. lia. }
  assert (∀ j, j < length (pattern k) →
            content !! (lineStart (splitLines content) i + p + j) = l !! (p + j)) as Hunits.
  { intros j Hj. apply splitLines_lookup; [done|lia]. }
  split; [|done].
  rewrite <-Hlit. by apply matchLiteral_ext.
Qed.

Lemma position_indexes_token_witness :
  ∃ lineText p,
    splitLines (js "x" ++ 10%N :: js "do TODO y") !! 1 = Some lineText
    ∧ matchAt todoPattern lineText p = true
    ∧ 5 = sum_list_with (λ l, length l + 1)
            (take 1 (splitLines (js "x" ++ 10%N :: js "do TODO y"))) + p
    ∧ matchLiteral todoPattern (js "x" ++ 10%N :: js "do TODO y") 5 = true
    ∧ ∀ j, j < length todoPattern →
           (js "x" ++ 10%N :: js "do TODO y") !! (5 + j) = lineText !! (p + j).
Proof.
  apply (position_indexes_token (js "x" ++ 10%N :: js "do TODO y")
           (mkItem TODO (js "y") 1 5)).
  assert (parseContent (js "x" ++ 10%N :: js "do TODO y") = [mkItem TODO (js "y") 1 5])
    as -> by (vm_compute; reflexivity).
  apply list_elem_of_here.
Defined.

(** C4. The output is the lines of [content] taken in order, each line
    giving the items of its [TODO] matches and then those of its [TK]
    matches; the matches of one kind in a line are all the whole-word
    matches, from left to right.  So the items are sorted by ascending
    line; within a line every [TODO] item before every [TK] item,
    whatever their columns; within one kind from left to right.  On the
    line [a TK b TODO c] the [TODO] at column 7 is emitted before the [TK]
    at column 2; in a text of three lines the [TK] of line 0 comes before
    the [TODO] of line 1, which comes before the [TK] that starts
    line 1. *)
Theorem emission_order :
  (∀ content,
     parseContent content
     = concat (imap (λ lineIndex line,
                       (itemAt (splitLines content) lineIndex line TODO
                          <$> allMatches todoPattern line)
                       ++ (itemAt (splitLines content) lineIndex line TK
                             <$> allMatches tkPattern line))
                    (splitLines content)))
  ∧ (∀ k line,
       StronglySorted lt (allMatches (pattern k) line)
       ∧ ∀ p, p ∈ allMatches (pattern k) line ↔ matchAt (pattern k) line p = true)
  ∧ (∀ content, StronglySorted emittedBefore (parseContent content))
  ∧ parseContent (js "a TK b TODO c")
    = [mkItem TODO (js "c") 0 7; mkItem TK (js "a") 0 2]
  ∧ parseContent (js "x TK" ++ 10%N :: js "TK y TODO z" ++ 10%N :: js "TODO")
    = [mkItem TK (js "x") 0 2; mkItem TODO (js "z") 1 10;
       mkItem TK [] 1 5; mkItem TODO [] 2 17].
Proof.
  split; [|split; [|split; [|split; [vm_compute; reflexivity|vm_compute; reflexivity]]]].
  - intros content. apply parseContent_lines.
  - intros k line. split; [apply matches_sorted|]. intros p. apply matches_spec.
  - intros content. rewrite parseContent_lines. apply (lines_sorted _ _ 0).
Qed.

(** C5. No two items of one extraction share line index, offset within
    the line and kind. *)
Theorem no_shared_triple content :
  NoDup (matchTriple (splitLines content) <$> parseContent content).
Proof.
  apply NoDup_fmap_2_strong.
  - intros a b (i & l & k & p & Hl & _ & ->)%elem_of_parseContent
               (i' & l' & k' & p' & Hl' & _ & ->)%elem_of_parseContent.
    rewrite !matchTriple_itemAt. intros [= <- <- <-].
    rewrite Hl in Hl'. by injection Hl' as <-.
  - apply sorted_emitted_NoDup. rewrite parseContent_lines. apply (lines_sorted _ _ 0).
Qed.

(** C2, as the code has it.  An occurrence of a token, in any mix of
    upper and lower case, is emitted exactly when no word character of the
    regular expression (an ASCII letter, a digit or the underscore) stands
    just before it and none just after it.  [TODOLIST] yields nothing,
    [a TODO b] yields one item, and so do [todo], [Todo] and [TODO]. *)
Theorem whole_word_matching :
  (∀ content lineIndex lineText k p,
     splitLines content !! lineIndex = Some lineText →
     matchLiteral (pattern k) lineText p = true →
     (emits content lineIndex k p
      ↔ wordBefore lineText p = false
        ∧ wordAt lineText (p + length (pattern k)) = false))
  ∧ parseContent (js "TODOLIST") = []
  ∧ length (parseContent (js "a TODO b")) = 1
  ∧ length (parseContent (js "todo")) = 1
  ∧ length (parseContent (js "Todo")) = 1
  ∧ length (parseContent (js "TODO")) = 1.
Proof.
  split; [|by vm_compute].
  intros content lineIndex lineText k p Hl Hlit.
  rewrite (emits_iff _ _ _ _ _ Hl), matchAt_iff. tauto.
Qed.

Lemma whole_word_matching_witness :
  emits (js "see tk") 0 TK 4
  ↔ wordBefore (js "see tk") 4 = false ∧ wordAt (js "see tk") (4 + length (pattern TK)) = false.
Proof.
  apply (proj1 whole_word_matching (js "see tk") 0 (js "see tk") TK 4).
  - reflexivity.
  - reflexivity.
Defined.

(** C2 as stated fails on the underscore: in [TODO_] the token is next to
    no alphanumeric character, and nothing is emitted. *)
Lemma whole_word_alphanumeric_counterexample :
  splitLines (js "TODO_") !! 0 = Some (js "TODO_")
  ∧ matchLiteral (pattern TODO) (js "TODO_") 0 = true
  ∧ alnumBefore (js "TODO_") 0 = false
  ∧ alnumAt (js "TODO_") (0 + length (pattern TODO)) = false
  ∧ parseContent (js "TODO_") = []
  ∧ ¬ emits (js "TODO_") 0 TODO 0.
Proof.
  repeat (split; [by vm_compute|]).
  intros (it & Hit & _). assert (parseContent (js "TODO_") = []) as Hnil by (by vm_compute).
  rewrite Hnil in Hit. by apply elem_of_nil in Hit.
Qed.

(** C3. The snippet of a [TODO] item is the first ten words, or all of
    them when there are fewer, of the rest of the line after the four code
    units of the token; the snippet of a [TK] item is the last three words,
    or all of them when there are fewer, of the line before the token.  The
    words are joined by single spaces and the snippet neither starts nor
    ends with white space. *)
Theorem snippet_words :
  (∀ content it,
     it ∈ parseContent content →
     ∃ lineText p ws,
       splitLines content !! line it = Some lineText
       ∧ matchAt (pattern (type it)) lineText p = true
       ∧ position it = lineStart (splitLines content) (line it) + p
       ∧ ws = match type it with
              | TODO => take 10 (words (drop (p + 4) lineText))
              | TK => sliceLast 3 (words (take p lineText))
              end
       ∧ text it = joinSp ws
       ∧ Forall isWord ws
       ∧ trim (text it) = text it)
  ∧ text <$> parseContent (js "TODO one two three four five six seven eight nine ten eleven")
    = [js "one two three four five six seven eight nine ten"]
  ∧ text <$> parseContent (js "alpha beta gamma TK") = [js "alpha beta gamma"]
  ∧ text <$> parseContent (js "a b c d TK") = [js "b c d"]
  ∧ text <$> parseContent (js "  TODO   fix    this  ") = [js "fix this"].
Proof.
  split; [|by vm_compute].
  intros content it (i & l & k & p & Hl & Hm & ->)%elem_of_parseContent.
  exists l, p. eexists. split; [done|]. split; [done|].
  split. { simpl. by rewrite absolutePosition_lineStart by eauto using lookup_splitLines_le. }
  split; [reflexivity|].
  assert (Forall isWord (match k with
                         | TODO => take 10 (words (drop (p + 4) l))
                         | TK => sliceLast 3 (words (take p l))
                         end)) as Hws.
  { destruct k; [apply Forall_take|apply Forall_drop]; apply words_isWord. }
  assert (itemText k l p = joinSp (match k with
                                   | TODO => take 10 (words (drop (p + 4) l))
                                   | TK => sliceLast 3 (words (take p l))
                                   end)) as Htext.
  { destruct k; [apply todoText_words|apply tkText_words]. }
  simpl. rewrite Htext. split; [done|]. split; [done|]. by apply trim_joinSp.
Qed.

Lemma snippet_words_witness :
  ∃ lineText p ws,
    splitLines (js "a b c d TK") !! 0 = Some lineText
    ∧ matchAt tkPattern lineText p = true
    ∧ 8 = lineStart (splitLines (js "a b c d TK")) 0 + p
    ∧ ws = sliceLast 3 (words (take p lineText))
    ∧ js "b c d" = joinSp ws
    ∧ Forall isWord ws
    ∧ trim (js "b c d") = js "b c d".
Proof.
  apply (proj1 snippet_words (js "a b c d TK") (mkItem TK (js "b c d") 0 8)).
  assert (parseContent (js "a b c d TK") = [mkItem TK (js "b c d") 0 8])
    as -> by (vm_compute; reflexivity).
  apply list_elem_of_here.
Defined.

(** C10. A match beside which there is no word is emitted all the same,
    with the empty snippet: a line that is only [TODO], or only [TK],
    gives one item with empty text. *)
Theorem empty_snippet_still_emitted :
  (∀ content lineIndex lineText k p,
     splitLines content !! lineIndex = Some lineText →
     matchAt (pattern k) lineText p = true →
     words (match k with
            | TODO => drop (p + 4) lineText
            | TK => take p lineText
            end) = [] →
     mkItem k [] lineIndex (lineStart (splitLines content) lineIndex + p)
       ∈ parseContent content)
  ∧ parseContent (js "TODO") = [mkItem TODO [] 0 0]
  ∧ parseContent (js "TK") = [mkItem TK [] 0 0].
Proof.
  split; [|by vm_compute].
  intros content i l k p Hl Hm Hw. apply elem_of_parseContent.
  exists i, l, k, p. split; [done|]. split; [done|].
  unfold itemAt. rewrite absolutePosition_lineStart by eauto using lookup_splitLines_le.
  f_equal. destruct k; simpl.
  - by rewrite todoText_words, Hw.
  - by rewrite tkText_words, Hw.
Qed.

Lemma empty_snippet_still_emitted_witness :
  mkItem TODO [] 1 (lineStart (splitLines (js "x" ++ 10%N :: js "- todo  ")) 1 + 2)
    ∈ parseContent (js "x" ++ 10%N :: js "- todo  ").
Proof.
  apply (proj1 empty_snippet_still_emitted
           (js "x" ++ 10%N :: js "- todo  ") 1 (js "- todo  ") TODO 2).
  - reflexivity.
  - reflexivity.
  - reflexivity.
Defined.

(** ** Further properties of the extractor *)

Lemma matchLiteral_fits k l p :
  matchLiteral (pattern k) l p = true → p + length (pattern k) ≤ length l.
Proof.
  intros Hlit. destruct (matchLiteral_word_ends k l p Hlit) as [_ Hend].
  pose proof (pattern_nonempty k).
  destruct (length (pattern k)) as [|n] eqn:En; [lia|].
  rewrite Nat.add_succ_r in Hend. simpl in Hend. unfold wordAt in Hend.
  destruct (l !! (p + n)) eqn:E; [|done]. apply lookup_lt_Some in E. lia.
Qed.

Lemma lineStart_line_le content i l :
  splitLines content !! i = Some l →
  l ≠ [] → lineStart (splitLines content) i + length l ≤ length content.
Proof.
  intros Hl Hne. destruct (splitLines_drop _ _ _ Hl) as [rest Hrest].
  apply (f_equal length) in Hrest. rewrite length_drop, length_app in Hrest.
  destruct l; [done|]. simpl in *. lia.
Qed.

Lemma item_line_lt content it :
  it ∈ parseContent content → line it < length (splitLines content).
Proof.
  intros (i & l & k & p & Hl & _ & ->)%elem_of_parseContent. simpl.
  by eapply lookup_lt_Some.
Qed.

(** X1. Every item lies inside the document: its line is one of the
    lines and the token at [position] ends within the text. *)
Theorem item_within_document content it :
  it ∈ parseContent content →
  line it < length (splitLines content)
  ∧ position it + length (pattern (type it)) ≤ length content.
Proof.
  intros Hin. split; [by apply item_line_lt|]. revert Hin.
  intros (i & l & k & p & Hl & Hm & ->)%elem_of_parseContent. simpl.
  rewrite absolutePosition_lineStart by eauto using lookup_splitLines_le.
  apply matchAt_iff in Hm as (Hlit%matchLiteral_fits & _).
  pose proof (pattern_nonempty k).
  assert (l ≠ []) as Hne by (intros ->; simpl in *; lia).
  pose proof (lineStart_line_le _ _ _ Hl Hne). lia.
Qed.

Lemma item_within_document_witness :
  1 < length (splitLines (js "x" ++ 10%N :: js "do TODO y"))
  ∧ 5 + length todoPattern ≤ length (js "x" ++ 10%N :: js "do TODO y").
Proof.
  apply (item_within_document (js "x" ++ 10%N :: js "do TODO y")
           (mkItem TODO (js "y") 1 5)).
  assert (parseContent (js "x" ++ 10%N :: js "do TODO y") = [mkItem TODO (js "y") 1 5])
    as -> by (vm_compute; reflexivity).
  apply list_elem_of_here.
Defined.

Lemma splitLines_app_newline a b :
  splitLines (a ++ 10%N :: b) = splitLines a ++ splitLines b.
Proof.
  induction a as [|c a IH]; simpl; [done|].
  destruct (c =? 10)%N; [by rewrite IH|].
  rewrite IH. destruct (splitLines a) eqn:E; [by destruct (splitLines_nonempty a)|done].
Qed.

Lemma sum_splitLines a :
  sum_list_with (λ l, length l + 1) (splitLines a) = length a + 1.
Proof.
  induction a as [|c a IH]; simpl; [done|].
  destruct (c =? 10)%N; simpl; [lia|].
  destruct (splitLines a) eqn:E; [by destruct (splitLines_nonempty a)|].
  simpl in *. lia.
Qed.

Lemma lineItems_app_l la lb i l :
  i ≤ length la → lineItems (la ++ lb) i l = lineItems la i l.
Proof.
  intros Hi. unfold lineItems, itemAt.
  assert (∀ p, absolutePosition (la ++ lb) i p = absolutePosition la i p) as Hp.
  { intros p. rewrite !absolutePosition_lineStart by (rewrite ?length_app; lia).
    unfold lineStart. by rewrite take_app_le. }
  f_equal; apply list_fmap_ext; intros ? p _; by rewrite Hp.
Qed.

Lemma lineItems_app_r la lb i l :
  i ≤ length lb →
  lineItems (la ++ lb) (length la + i) l
  = shiftItem (length la) (sum_list_with (λ l, length l + 1) la) <$> lineItems lb i l.
Proof.
  intros Hi. unfold lineItems, itemAt. rewrite fmap_app, <-!list_fmap_compose.
  assert (∀ p, absolutePosition (la ++ lb) (length la + i) p
               = sum_list_with (λ l, length l + 1) la + absolutePosition lb i p) as Hp.
  { intros p. rewrite !absolutePosition_lineStart by (rewrite ?length_app; lia).
    unfold lineStart. rewrite take_app_add, sum_list_with_app. lia. }
  f_equal; apply list_fmap_ext; intros ? p _; unfold shiftItem; simpl; by rewrite Hp.
Qed.

Lemma concat_fmap_fmap {A B} (f : A → B) (ls : list (list A)) :
  concat (fmap (M:=list) f <$> ls) = f <$> concat ls.
Proof. induction ls as [|l ls IH]; csimpl; [done|]. by rewrite fmap_app, IH. Qed.

(** X2. The items of two documents joined by a line break are the items
    of the first followed by those of the second, moved down by the lines
    of the first and right by its length plus one. *)
Theorem parseContent_app_newline a b :
  parseContent (a ++ 10%N :: b)
  = parseContent a
    ++ (shiftItem (length (splitLines a)) (length a + 1) <$> parseContent b).
Proof.
  rewrite !parseContent_lines, splitLines_app_newline, imap_app, concat_app.
  f_equal.
  - f_equal. apply imap_ext. intros i l Hl%lookup_lt_Some.
    apply lineItems_app_l. lia.
  - rewrite <-sum_splitLines, <-concat_fmap_fmap, fmap_imap. f_equal.
    apply imap_ext. intros i l Hl%lookup_lt_Some. simpl.
    apply lineItems_app_r. lia.
Qed.

(** X3. Nothing is extracted exactly when no line holds a whole-word
    token. *)
Theorem parseContent_nil_iff content :
  parseContent content = []
  ↔ ∀ i l k p, splitLines content !! i = Some l → matchAt (pattern k) l p = false.
Proof.
  split.
  - intros Hnil i l k p Hl. apply not_true_is_false. intros Hm.
    assert (itemAt (splitLines content) i l k p ∈ parseContent content) as Hin.
    { apply elem_of_parseContent. eauto 8. }
    rewrite Hnil in Hin. by apply elem_of_nil in Hin.
  - intros Hno. destruct (parseContent content) as [|it its] eqn:E; [done|].
    assert (it ∈ parseContent content) as Hin by (rewrite E; left).
    apply elem_of_parseContent in Hin as (i & l & k & p & Hl & Hm & _).
    rewrite (Hno _ _ _ _ Hl) in Hm. done.
Qed.

(** *** Letter case *)

Lemma inRange_out lo hi c : (c < lo ∨ hi < c)%N → inRange lo hi c = false.
Proof. unfold inRange. rewrite andb_false_iff, !N.leb_gt. tauto. Qed.

Lemma isWhiteSpace_graphic c : (33 ≤ c ≤ 126)%N → isWhiteSpace c = false.
Proof.
  intros H. unfold isWhiteSpace. rewrite !inRange_out by lia. by eqb_false c.
Qed.

Lemma canonicalize_cases c :
  (inRange 97 122 c = true ∧ canonicalize c = (c - 32)%N ∧ (97 ≤ c ≤ 122)%N)
  ∨ (inRange 97 122 c = false ∧ canonicalize c = c).
Proof.
  unfold canonicalize. destruct (inRange 97 122 c) eqn:E; [left|by right].
  by apply inRange_spec in E.
Qed.

Lemma canonicalize_idem c : canonicalize (canonicalize c) = canonicalize c.
Proof.
  destruct (canonicalize_cases c) as [(_ & -> & H)|(E & ->)].
  - unfold canonicalize. by rewrite inRange_out by lia.
  - unfold canonicalize. by rewrite E.
Qed.

Lemma isWordChar_canonicalize c : isWordChar (canonicalize c) = isWordChar c.
Proof.
  destruct (canonicalize_cases c) as [(E & -> & H)|(_ & ->)]; [|done].
  unfold isWordChar. rewrite E.
  assert (inRange 65 90 (c - 32) = true) as -> by (apply inRange_spec; lia).
  by rewrite !orb_true_r.
Qed.

Lemma isWhiteSpace_canonicalize c : isWhiteSpace (canonicalize c) = isWhiteSpace c.
Proof.
  destruct (canonicalize_cases c) as [(_ & -> & H)|(_ & ->)]; [|done].
  by rewrite !isWhiteSpace_graphic by lia.
Qed.

Lemma canonicalize_newline c : (canonicalize c =? 10)%N = (c =? 10)%N.
Proof.
  destruct (canonicalize_cases c) as [(_ & -> & H)|(_ & ->)]; [|done].
  rewrite (proj2 (N.eqb_neq (c - 32) 10)) by lia.
  by rewrite (proj2 (N.eqb_neq c 10)) by lia.
Qed.

Lemma wordAt_upperCase s i : wordAt (upperCase s) i = wordAt s i.
Proof.
  unfold wordAt, upperCase. rewrite list_lookup_fmap.
  destruct (s !! i); simpl; [apply isWordChar_canonicalize|done].
Qed.

Lemma matchLiteral_upperCase pat s i :
  matchLiteral pat (upperCase s) i = matchLiteral pat s i.
Proof.
  revert i. induction pat as [|pc pat IH]; intros i; simpl; [done|].
  unfold upperCase at 1. rewrite list_lookup_fmap.
  destruct (s !! i); simpl; [|done]. by rewrite canonicalize_idem, IH.
Qed.

Lemma matchAt_upperCase pat s i : matchAt pat (upperCase s) i = matchAt pat s i.
Proof.
  assert (∀ j, wordBefore (upperCase s) j = wordBefore s j) as Hb.
  { intros [|j]; simpl; [done|apply wordAt_upperCase]. }
  unfold matchAt, isWordBoundary.
  by rewrite matchLiteral_upperCase, !wordAt_upperCase, !Hb.
Qed.

Lemma allMatches_upperCase pat s : allMatches pat (upperCase s) = allMatches pat s.
Proof.
  assert (∀ fuel i, searchFrom pat (upperCase s) fuel i = searchFrom pat s fuel i) as Hs.
  { induction fuel as [|fuel IH]; intros i; simpl; [done|].
    by rewrite matchAt_upperCase, IH. }
  assert (∀ fuel i, execLoop pat (upperCase s) fuel i = execLoop pat s fuel i) as He.
  { induction fuel as [|fuel IH]; intros i; simpl; [done|].
    unfold regexExec, upperCase. rewrite length_fmap. fold (upperCase s).
    rewrite Hs. destruct (searchFrom _ _ _ _); [by rewrite IH|done]. }
  unfold allMatches. rewrite He. unfold upperCase. by rewrite length_fmap.
Qed.

Lemma splitLines_upperCase s : splitLines (upperCase s) = upperCase <$> splitLines s.
Proof.
  induction s as [|c s IH]; [done|]. unfold upperCase in *. csimpl.
  rewrite canonicalize_newline, IH.
  destruct (c =? 10)%N; [done|]. by destruct (splitLines s).
Qed.

Lemma dropWs_upperCase s : dropWs (upperCase s) = upperCase (dropWs s).
Proof.
  induction s as [|c s IH]; [done|]. unfold upperCase in *. csimpl.
  rewrite isWhiteSpace_canonicalize. by destruct (isWhiteSpace c).
Qed.

Lemma reverse_upperCase s : reverse (upperCase s) = upperCase (reverse s).
Proof. unfold upperCase. by rewrite fmap_reverse. Qed.

Lemma take_upperCase n s : take n (upperCase s) = upperCase (take n s).
Proof. unfold upperCase. by rewrite fmap_take. Qed.

Lemma drop_upperCase n s : drop n (upperCase s) = upperCase (drop n s).
Proof. unfold upperCase. by rewrite fmap_drop. Qed.

Lemma trim_upperCase s : trim (upperCase s) = upperCase (trim s).
Proof.
  unfold trim.
  by rewrite dropWs_upperCase, reverse_upperCase, dropWs_upperCase, reverse_upperCase.
Qed.

Lemma splitWsFrom_upperCase insep cur s :
  splitWsFrom insep (upperCase cur) (upperCase s) = upperCase <$> splitWsFrom insep cur s.
Proof.
  revert insep cur. induction s as [|c s IH]; intros insep cur; [done|].
  unfold upperCase in *. csimpl. rewrite isWhiteSpace_canonicalize.
  destruct (isWhiteSpace c).
  - destruct insep; csimpl; [apply (IH true [])|]. f_equal. apply (IH true []).
  - rewrite <-(IH false (cur ++ [c])). by rewrite fmap_app.
Qed.

Lemma joinSp_upperCase ws : joinSp (upperCase <$> ws) = upperCase (joinSp ws).
Proof.
  induction ws as [|w ws IH]; [done|]. destruct ws as [|w' ws]; [done|].
  change (joinSp (upperCase <$> w :: w' :: ws))
    with (upperCase w ++ 32%N :: joinSp (upperCase <$> w' :: ws)).
  rewrite IH. unfold upperCase. change (joinSp (w :: w' :: ws))
    with (w ++ 32%N :: joinSp (w' :: ws)). by rewrite fmap_app.
Qed.

Lemma itemText_upperCase k l p :
  itemText k (upperCase l) p = upperCase (itemText k l p).
Proof.
  destruct k; simpl; unfold todoText, tkText, splitWs.
  - rewrite drop_upperCase, trim_upperCase, (splitWsFrom_upperCase false []).
    rewrite <-fmap_take. apply joinSp_upperCase.
  - rewrite take_upperCase, trim_upperCase, (splitWsFrom_upperCase false []).
    unfold sliceLast. rewrite length_fmap, <-fmap_drop. apply joinSp_upperCase.
Qed.

Lemma absolutePosition_upperCase lines i p :
  absolutePosition (upperCase <$> lines) i p = absolutePosition lines i p.
Proof.
  assert (∀ l acc,
    foldl (λ position i, position + (length (default [] ((upperCase <$> lines) !! i)) + 1))
          acc l
    = foldl (λ position i, position + (length (default [] (lines !! i)) + 1)) acc l) as H.
  { induction l as [|j l IH]; intros acc; simpl; [done|].
    rewrite IH. do 3 f_equal. rewrite list_lookup_fmap.
    destruct (lines !! j); simpl; [|done]. unfold upperCase. by rewrite length_fmap. }
  unfold absolutePosition. by rewrite H.
Qed.

Lemma lineItems_upperCase lines i l :
  lineItems (upperCase <$> lines) i (upperCase l) = upperItem <$> lineItems lines i l.
Proof.
  unfold lineItems. rewrite !allMatches_upperCase, fmap_app, <-!list_fmap_compose.
  f_equal; apply list_fmap_ext; intros ? p _;
    unfold compose, itemAt, upperItem; cbn [type text line position];
    by rewrite absolutePosition_upperCase, itemText_upperCase.
Qed.

(** X4. Letter case plays no part in what is found: the document with
    every ASCII letter in upper case gives the same items at the same
    lines and positions, with their snippets in upper case. *)
Theorem parseContent_upperCase content :
  parseContent (upperCase content) = upperItem <$> parseContent content.
Proof.
  rewrite !parseContent_lines, splitLines_upperCase, imap_fmap.
  rewrite <-concat_fmap_fmap, fmap_imap. f_equal.
  apply imap_ext. intros i l _. simpl. apply lineItems_upperCase.
Qed.

Lemma lineStart_S lines i l :
  lines !! i = Some l → lineStart lines (S i) = lineStart lines i + length l + 1.
Proof.
  intros Hl. unfold lineStart. rewrite (take_S_r _ _ _ Hl), sum_list_with_app.
  simpl. lia.
Qed.

Lemma lineStart_mono lines i j : i ≤ j → lineStart lines i ≤ lineStart lines j.
Proof.
  intros Hij. unfold lineStart.
  replace (take i lines) with (take i (take j lines)) by (rewrite take_take; f_equal; lia).
  rewrite <-(take_drop i (take j lines)) at 2. rewrite sum_list_with_app. lia.
Qed.

(** A match on an earlier line lies before the start of any later line. *)
Lemma lineStart_lt lines i j l p :
  lines !! i = Some l → p < length l → i < j →
  lineStart lines i + p < lineStart lines j.
Proof.
  intros Hl Hp Hij. pose proof (lineStart_S _ _ _ Hl).
  pose proof (lineStart_mono lines (S i) j ltac:(lia)). lia.
Qed.

Lemma match_kind_unique k k' l p :
  matchLiteral (pattern k) l p = true → matchLiteral (pattern k') l p = true → k = k'.
Proof.
  destruct k, k'; try done; unfold pattern.
  - intros (a & b & c & d & _ & Hb & _ & _ & _ & Hcb & _ & _)%matchLiteral_TODO
           (a' & b' & _ & Hb' & _ & Hcb')%matchLiteral_TK. congruence.
  - intros (a' & b' & _ & Hb' & _ & Hcb')%matchLiteral_TK
           (a & b & c & d & _ & Hb & _ & _ & _ & Hcb & _ & _)%matchLiteral_TODO.
    congruence.
Qed.

Lemma position_inj content a b :
  a ∈ parseContent content → b ∈ parseContent content →
  position a = position b → a = b.
Proof.
  intros (i & l & k & p & Hl & Hm & ->)%elem_of_parseContent
         (i' & l' & k' & p' & Hl' & Hm' & ->)%elem_of_parseContent. simpl.
  rewrite !absolutePosition_lineStart by eauto using lookup_splitLines_le.
  apply matchAt_iff in Hm as (Hlit & _). apply matchAt_iff in Hm' as (Hlit' & _).
  pose proof (matchLiteral_fits _ _ _ Hlit). pose proof (matchLiteral_fits _ _ _ Hlit').
  pose proof (pattern_nonempty k). pose proof (pattern_nonempty k').
  intros Hpos.
  assert (i = i') as <-.
  { destruct (decide (i < i')).
    - pose proof (lineStart_lt _ i i' l p Hl ltac:(lia) ltac:(lia)). lia.
    - destruct (decide (i' < i)); [|lia].
      pose proof (lineStart_lt _ i' i l' p' Hl' ltac:(lia) ltac:(lia)). lia. }
  rewrite Hl in Hl'. injection Hl' as <-.
  assert (p = p') as <- by lia.
  by rewrite (match_kind_unique _ _ _ _ Hlit Hlit').
Qed.

(** X5. No two items of one extraction have the same [position]: the
    absolute offset alone identifies an item. *)
Theorem positions_distinct content :
  NoDup (position <$> parseContent content).
Proof.
  apply NoDup_fmap_2_strong.
  - intros a b. apply position_inj.
  - apply sorted_emitted_NoDup. rewrite parseContent_lines. apply (lines_sorted _ _ 0).
Qed.

(** * The view and its timers *)

Module ViewFacts.
Import TodoTkView.

Lemma Inv_same v v' :
  timers v' = timers v → nextHandle v' = nextHandle v →
  pollInterval v' = pollInterval v → updateTimeout v' = updateTimeout v →
  Inv v → Inv v'.
Proof. intros Ht Hn Hp Hu [? ? ? ? ?]. constructor; rewrite ?Ht, ?Hn, ?Hp, ?Hu; done. Qed.

Lemma Inv_initial : Inv initial.
Proof. constructor; simpl; intros; simplify_eq; by rewrite ?lookup_empty in *. Qed.

Lemma Inv_stopPolling v : Inv v → Inv (stopPolling v).
Proof.
  intros [Hf Hp Hu Hm Hd]. unfold stopPolling.
  destruct (pollInterval v) as [h0|] eqn:E; [|by constructor; rewrite ?E].
  constructor; simpl.
  - intros h tm [_ Hl]%lookup_delete_Some. eauto.
  - done.
  - done.
  - intros h tm [Hne Hl]%lookup_delete_Some. split; [|done].
    intros Hmon%(Hm _ _ Hl). congruence.
  - intros h tm [Hne Hl]%lookup_delete_Some. by apply Hd.
Qed.

Lemma stopPolling_None v : pollInterval (stopPolling v) = None.
Proof. unfold stopPolling. by destruct (pollInterval v) eqn:E. Qed.

Lemma Inv_setupEditorChangeListener ws r v :
  Inv v → Inv (setupEditorChangeListener ws r v).
Proof.
  intros [Hf Hp Hu Hm Hd]. unfold setupEditorChangeListener. simpl.
  destruct (pollInterval v) as [h0|] eqn:E; constructor; simpl.
  - intros h tm [[<- _]|[Hne [_ Hl]%lookup_delete_Some]]%lookup_insert_Some; [lia|].
    apply Hf in Hl. lia.
  - intros h [= <-]. lia.
  - intros h Hh%Hu. lia.
  - intros h tm [[<- <-]|[Hne [Hne0 Hl]%lookup_delete_Some]]%lookup_insert_Some; [done|].
    split; [|congruence]. intros Hmon%(Hm _ _ Hl). congruence.
  - intros h tm [[<- <-]|[Hne [Hne0 Hl]%lookup_delete_Some]]%lookup_insert_Some.
    + split; [done|]. intros Hh%Hu. lia.
    + by apply Hd.
  - intros h tm [[<- _]|[Hne Hl]]%lookup_insert_Some; [lia|].
    apply Hf in Hl. lia.
  - intros h [= <-]. lia.
  - intros h Hh%Hu. lia.
  - intros h tm [[<- <-]|[Hne Hl]]%lookup_insert_Some; [done|].
    split; [|congruence]. intros Hmon%(Hm _ _ Hl). congruence.
  - intros h tm [[<- <-]|[Hne Hl]]%lookup_insert_Some.
    + split; [done|]. intros Hh%Hu. lia.
    + by apply Hd.
Qed.

Lemma Inv_debounceUpdate v : Inv v → Inv (debounceUpdate v).
Proof.
  intros [Hf Hp Hu Hm Hd]. unfold debounceUpdate. simpl.
  destruct (updateTimeout v) as [h0|] eqn:E; constructor; simpl.
  - intros h tm [[<- _]|[Hne [_ Hl]%lookup_delete_Some]]%lookup_insert_Some; [lia|].
    apply Hf in Hl. lia.
  - intros h Hh%Hp. lia.
  - intros h [= <-]. lia.
  - intros h tm [[<- <-]|[Hne [Hne0 Hl]%lookup_delete_Some]]%lookup_insert_Some.
    + split; [done|]. intros Hh%Hp. lia.
    + by apply Hm.
  - intros h tm [[<- <-]|[Hne [Hne0 Hl]%lookup_delete_Some]]%lookup_insert_Some; [done|].
    split; [|congruence]. intros Hdb%(Hd _ _ Hl). congruence.
  - intros h tm [[<- _]|[Hne Hl]]%lookup_insert_Some; [lia|].
    apply Hf in Hl. lia.
  - intros h Hh%Hp. lia.
  - intros h [= <-]. lia.
  - intros h tm [[<- <-]|[Hne Hl]]%lookup_insert_Some.
    + split; [done|]. intros Hh%Hp. lia.
    + by apply Hm.
  - intros h tm [[<- <-]|[Hne Hl]]%lookup_insert_Some; [done|].
    split; [|congruence]. intros Hdb%(Hd _ _ Hl). congruence.
Qed.


Lemma Inv_clearTimer h v : Inv v → Inv (clearTimer h v).
Proof.
  intros [Hf Hp Hu Hm Hd]. constructor; simpl; [|done..| |].
  - intros h' tm [_ Hl]%lookup_delete_Some. eauto.
  - intros h' tm [_ Hl]%lookup_delete_Some. eauto.
  - intros h' tm [_ Hl]%lookup_delete_Some. eauto.
Qed.

(** A timer of [onOpen] is neither the monitor nor the debounced refresh. *)
Lemma Inv_setTimer_open cb delay v :
  isMonitor (mkTimer cb 0) = false → isDebounced (mkTimer cb 0) = false →
  Inv v → Inv (setTimer cb delay v).2.
Proof.
  intros Hcm Hcd [Hf Hp Hu Hm Hd]. constructor; simpl.
  - intros h tm [[<- _]|[_ Hl%Hf]]%lookup_insert_Some; lia.
  - intros h Hh%Hp. lia.
  - intros h Hh%Hu. lia.
  - intros h tm [[<- <-]|[Hne Hl]]%lookup_insert_Some; [|by apply Hm].
    unfold isMonitor in *. simpl in *. rewrite Hcm. split; [done|]. intros Hh%Hp. lia.
  - intros h tm [[<- <-]|[Hne Hl]]%lookup_insert_Some; [|by apply Hd].
    unfold isDebounced in *. simpl in *. rewrite Hcd. split; [done|]. intros Hh%Hu. lia.
Qed.

Lemma Inv_rearm h tm d v :
  timers v !! h = Some tm → Inv v →
  Inv (mkView (contentEl v) (items v) (currentFile v) (updateTimeout v)
         (currentMarkdownView v) (pollInterval v) (now v) (nextHandle v)
         (<[h := mkTimer (callback tm) d]> (timers v))).
Proof.
  intros Hh [Hf Hp Hu Hm Hd]. constructor; simpl; [|done..| |].
  - intros h' tm' [[<- _]|[_ Hl]]%lookup_insert_Some; eauto.
  - intros h' tm' [[<- <-]|[_ Hl]]%lookup_insert_Some; [|by apply Hm].
    by rewrite <-(Hm _ _ Hh).
  - intros h' tm' [[<- <-]|[_ Hl]]%lookup_insert_Some; [|by apply Hd].
    by rewrite <-(Hd _ _ Hh).
Qed.

Lemma Inv_pollTick ws trackedFile v : Inv v → Inv (pollTick ws trackedFile v).
Proof.
  intros HI. unfold pollTick.
  repeat case_match; try done;
    try (by apply Inv_debounceUpdate);
    by apply (Inv_same (stopPolling v)), Inv_stopPolling.
Qed.

Lemma resolveMarkdownView_same ws v :
  let v' := (resolveMarkdownView ws v).2 in
  timers v' = timers v ∧ nextHandle v' = nextHandle v
  ∧ pollInterval v' = pollInterval v ∧ updateTimeout v' = updateTimeout v
  ∧ contentEl v' = contentEl v ∧ items v' = items v ∧ now v' = now v.
Proof. unfold resolveMarkdownView. by repeat case_match. Qed.

Lemma Inv_update ws v : Inv v → Inv (update ws v).
Proof.
  intros HI. unfold update.
  destruct (contentEl v); [|done].
  destruct (resolveMarkdownView ws (setContent Blank v)) as [mv v1] eqn:Er.
  pose proof (resolveMarkdownView_same ws (setContent Blank v)) as Hs.
  rewrite Er in Hs. simpl in Hs. destruct Hs as (Ht & Hn & Hp & Hu & _).
  assert (Inv v1) as HI1 by (by apply (Inv_same v)).
  destruct mv as [r|]; [|by apply (Inv_same v1)].
  destruct (editor (viewOf ws r)), (file (viewOf ws r)); try by apply (Inv_same v1).
  match goal with |- Inv (setContent _ ?x) => apply (Inv_same x); try done end.
  case_match; [|by apply (Inv_same v1)].
  apply Inv_setupEditorChangeListener, Inv_stopPolling. by apply (Inv_same v1).
Qed.

Lemma Inv_onOpen v : Inv v → Inv (onOpen v).
Proof.
  intros HI. unfold onOpen. apply Inv_setTimer_open; [done..|]. by apply (Inv_same v).
Qed.

Lemma Inv_onClose v : Inv v → Inv (onClose v).
Proof.
  intros HI. unfold onClose.
  match goal with |- Inv (setCurrentMarkdownView _ ?x) => apply (Inv_same x); try done end.
  apply Inv_stopPolling.
  destruct (updateTimeout v) as [h|] eqn:E; [|done].
  destruct (Inv_clearTimer h v HI) as [Hf Hp Hu Hm Hd].
  constructor; simpl in *; try done.
  intros h' tm Hl. split; [|done]. intros Hdb%(Hd _ _ Hl).
  rewrite E in Hdb. injection Hdb as ->.
  apply lookup_delete_Some in Hl as [? _]. done.
Qed.

Lemma Inv_fire ws h v : Inv v → Inv (fire ws h v).
Proof.
  intros HI. unfold fire.
  destruct (timers v !! h) as [tm|] eqn:Eh; [|done].
  destruct (callback tm) as [trackedFile| | |] eqn:Ec.
  - apply Inv_pollTick. rewrite <-Ec. by apply Inv_rearm.
  - by apply Inv_update, Inv_clearTimer.
  - apply Inv_setTimer_open; [done..|]. by apply Inv_update, Inv_clearTimer.
  - simpl. destruct (currentFile v); [by apply Inv_clearTimer|].
    by apply Inv_update, Inv_clearTimer.
Qed.

Lemma Inv_step v v' : step v v' → Inv v → Inv v'.
Proof.
  destruct 1; intros HI.
  - by apply Inv_onOpen.
  - by apply Inv_onClose.
  - by apply Inv_update.
  - by apply Inv_fire.
  - by apply (Inv_same v).
Qed.

Lemma reachable_Inv v : reachable v → Inv v.
Proof.
  unfold reachable. revert v. apply rtc_ind_r; [apply Inv_initial|].
  intros v1 v2 _ Hstep IH. by eapply Inv_step.
Qed.

(** At most one monitor is running, and at most one debounced refresh is
    pending, in every state the view can reach. *)
Lemma monitors_unique v h1 tm1 h2 tm2 :
  reachable v → monitors v !! h1 = Some tm1 → monitors v !! h2 = Some tm2 → h1 = h2.
Proof.
  intros [_ _ _ Hm _]%reachable_Inv.
  unfold monitors. rewrite !map_lookup_filter_Some. simpl.
  intros [Hl1 Hm1] [Hl2 Hm2].
  apply (Hm _ _ Hl1) in Hm1. apply (Hm _ _ Hl2) in Hm2. congruence.
Qed.


Lemma debounced_lookup v h tm :
  debounced v !! h = Some tm ↔ timers v !! h = Some tm ∧ isDebounced tm = true.
Proof. unfold debounced. by rewrite map_lookup_filter_Some. Qed.

Lemma pollTick_detects ws path v :
  detects ws path v → pollTick ws (Some path) v = debounceUpdate v.
Proof.
  intros (r & content & Hr & He & Hf & Hc & Hch). unfold pollTick.
  rewrite Hr, He, Hf, Hc, Hch. by rewrite bool_decide_eq_true_2.
Qed.

(** After [debounceUpdate] exactly one debounced refresh is pending: the
    new one, due 200 ms from now. *)
Lemma debounceUpdate_pending v :
  Inv v →
  now (debounceUpdate v) = now v
  ∧ updateTimeout (debounceUpdate v) = Some (nextHandle v)
  ∧ debounced (debounceUpdate v)
    = {[ nextHandle v := mkTimer DebouncedUpdate (now v + 200) ]}.
Proof.
  intros [Hf Hp Hu Hm Hd]. unfold debounceUpdate. simpl.
  assert (∀ h tm, timers v !! h = Some tm → isDebounced tm = true →
            updateTimeout v = Some h) as Hdb.
  { intros h tm Hl Hdb. by apply (Hd _ _ Hl). }
  destruct (updateTimeout v) as [h0|] eqn:E; simpl.
  - split; [done|]. split; [done|]. apply map_eq. intros h.
    destruct (decide (h = nextHandle v)) as [->|Hne].
    + rewrite lookup_singleton_eq. apply debounced_lookup. simpl.
      by rewrite lookup_insert_eq.
    + rewrite lookup_singleton_ne by done.
      destruct (debounced _ !! h) as [tm|] eqn:El; [|done].
      apply debounced_lookup in El as [Hl Htm]. simpl in Hl.
      rewrite lookup_insert_ne in Hl by done.
      apply lookup_delete_Some in Hl as [Hne0 Hl].
      specialize (Hdb _ _ Hl Htm). congruence.
  - split; [done|]. split; [done|]. apply map_eq. intros h.
    destruct (decide (h = nextHandle v)) as [->|Hne].
    + rewrite lookup_singleton_eq. apply debounced_lookup. simpl.
      by rewrite lookup_insert_eq.
    + rewrite lookup_singleton_ne by done.
      destruct (debounced _ !! h) as [tm|] eqn:El; [|done].
      apply debounced_lookup in El as [Hl Htm]. simpl in Hl.
      rewrite lookup_insert_ne in Hl by done.
      specialize (Hdb _ _ Hl Htm). congruence.
Qed.

Lemma Inv_burst path v0 n v : Inv v0 → burst path v0 n v → Inv v.
Proof.
  intros HI. induction 1 as [ws _|n v d ws _ IH _].
  - by apply Inv_pollTick.
  - apply Inv_pollTick. by apply (Inv_same v).
Qed.

(** [update] starts and stops monitors only: a debounced refresh that is
    pending after it was pending before it. *)
Lemma stopPolling_timers v h tm :
  timers (stopPolling v) !! h = Some tm → timers v !! h = Some tm.
Proof.
  unfold stopPolling. destruct (pollInterval v); [|done]. simpl.
  by intros [_ ?]%lookup_delete_Some.
Qed.

Lemma update_adds_no_debounced ws v h tm :
  timers (update ws v) !! h = Some tm → isDebounced tm = true →
  timers v !! h = Some tm.
Proof.
  unfold update. destruct (contentEl v); [|done].
  destruct (resolveMarkdownView ws (setContent Blank v)) as [mv v1] eqn:Er.
  pose proof (resolveMarkdownView_same ws (setContent Blank v)) as Hs.
  rewrite Er in Hs. simpl in Hs. destruct Hs as (Ht & _).
  destruct mv as [r|]; [|simpl; by rewrite Ht].
  destruct (editor (viewOf ws r)), (file (viewOf ws r)); try (simpl; by rewrite Ht).
  simpl. case_match; [|simpl; by rewrite Ht].
  unfold setupEditorChangeListener. simpl. rewrite stopPolling_None. simpl.
  intros [[<- <-]|[_ Hl]]%lookup_insert_Some; [done|].
  apply stopPolling_timers in Hl. simpl in Hl. by rewrite Ht in Hl.
Qed.

(** When the one pending refresh fires, [update] runs and no debounced
    refresh is left. *)
Lemma fire_debounced ws h v d :
  Inv v → debounced v = {[ h := mkTimer DebouncedUpdate d ]} →
  fire ws h v = update ws (clearTimer h v) ∧ debounced (fire ws h v) = ∅.
Proof.
  intros [Hf Hp Hu Hm Hd] Hone.
  assert (timers v !! h = Some (mkTimer DebouncedUpdate d)) as Hh.
  { apply (debounced_lookup v h (mkTimer DebouncedUpdate d)).
    by rewrite Hone, lookup_singleton_eq. }
  assert (fire ws h v = update ws (clearTimer h v)) as Hfire.
  { unfold fire. by rewrite Hh. }
  split; [done|]. rewrite Hfire. apply map_eq. intros h'. rewrite lookup_empty.
  destruct (debounced _ !! h') as [tm|] eqn:El; [|done].
  apply debounced_lookup in El as [Hl Htm].
  apply update_adds_no_debounced in Hl; [|done]. simpl in Hl.
  apply lookup_delete_Some in Hl as [Hne Hl].
  assert (debounced v !! h' = Some tm) as Hin by (by apply debounced_lookup).
  rewrite Hone, lookup_singleton_ne in Hin by done. done.
Qed.



(** C7, evaluated.  The panel tracks [a.md] and its monitor runs; that
    tab is closed, a tab with [b.md] is active and [update] is called.
    The refresh resolves [b.md], yet the one monitor is still the timer
    started for [a.md]: none is started for [b.md].  At its next tick
    that monitor stops and clears [currentMarkdownView], and no monitor
    is left. *)
Theorem monitor_not_restarted_for_new_document :
  reachable retargeted
  ∧ currentFile retargeted = Some "b.md"
  ∧ currentMarkdownView retargeted = Some 1
  ∧ pollInterval retargeted = Some 2
  ∧ monitors retargeted = {[ 2 := mkTimer (PollTick (Some "a.md")) 500 ]}
  ∧ monitors (fire switched 2 (advance 500 retargeted)) = ∅
  ∧ currentMarkdownView (fire switched 2 (advance 500 retargeted)) = None.
Proof.
  split.
  { unfold reachable, retargeted, tracking.
    eapply rtc_l; [apply step_open|]. eapply rtc_l; [apply step_update|].
    eapply rtc_l; [apply step_update|]. apply rtc_refl. }
  split; [by vm_compute|]. split; [by vm_compute|]. split; [by vm_compute|].
  split; [by vm_compute|]. split; by vm_compute.
Qed.

Lemma resolveMarkdownView_setContent ws d v :
  (resolveMarkdownView ws (setContent d v)).1 = (resolveMarkdownView ws v).1.
Proof. unfold resolveMarkdownView. simpl. by repeat case_match. Qed.

(** C8, as the code has it.  When [update] resolves no markdown view it
    shows the message for no active file and clears [currentFile] and
    [currentMarkdownView]; it touches no timer, so a running monitor is
    still running after the refresh.  The monitor stops itself at its
    next tick. *)
Theorem refresh_without_document ws v d :
  contentEl v = Some d →
  (resolveMarkdownView ws v).1 = None →
  contentEl (update ws v) = Some NoActiveFile
  ∧ currentFile (update ws v) = None
  ∧ currentMarkdownView (update ws v) = None
  ∧ items (update ws v) = items v
  ∧ pollInterval (update ws v) = pollInterval v
  ∧ updateTimeout (update ws v) = updateTimeout v
  ∧ timers (update ws v) = timers v
  ∧ ∀ ws' trackedFile,
      pollInterval (pollTick ws' trackedFile (update ws v)) = None
      ∧ ∀ h, pollInterval v = Some h →
             timers (pollTick ws' trackedFile (update ws v)) !! h = None.
Proof.
  intros Hd Hnone.
  assert (update ws v
          = setCurrentMarkdownView None (setCurrentFile None (setContent NoActiveFile
              (resolveMarkdownView ws (setContent Blank v)).2))) as Hup.
  { unfold update. rewrite Hd.
    pose proof (resolveMarkdownView_setContent ws Blank v) as Hr.
    rewrite Hnone in Hr.
    destruct (resolveMarkdownView ws (setContent Blank v)) as [mv v1].
    simpl in Hr. by subst mv. }
  pose proof (resolveMarkdownView_same ws (setContent Blank v)) as Hs.
  simpl in Hs. destruct Hs as (Ht & Hn & Hp & Hu & Hc & Hi & _).
  rewrite Hup. simpl. rewrite Ht, Hp, Hu, Hi.
  repeat (split; [done|]).
  intros ws' trackedFile. unfold pollTick, stopPolling. simpl. rewrite Hp.
  destruct (pollInterval v) as [h0|]; simpl; [|done].
  split; [done|]. intros h [= <-]. by rewrite Ht, lookup_delete_eq.
Qed.

Lemma refresh_without_document_witness :
  contentEl (update noTab tracking) = Some NoActiveFile
  ∧ currentFile (update noTab tracking) = None
  ∧ currentMarkdownView (update noTab tracking) = None
  ∧ items (update noTab tracking) = items tracking
  ∧ pollInterval (update noTab tracking) = pollInterval tracking
  ∧ updateTimeout (update noTab tracking) = updateTimeout tracking
  ∧ timers (update noTab tracking) = timers tracking
  ∧ ∀ ws' trackedFile,
      pollInterval (pollTick ws' trackedFile (update noTab tracking)) = None
      ∧ ∀ h, pollInterval tracking = Some h →
             timers (pollTick ws' trackedFile (update noTab tracking)) !! h = None.
Proof.
  apply (refresh_without_document noTab tracking (Outline [(TODO, js "x")])).
  - reflexivity.
  - reflexivity.
Defined.

(** C8 as stated fails: the monitor started for [a.md] is still running
    when a refresh that found no markdown view returns. *)
Lemma refresh_without_document_keeps_monitor :
  reachable (update noTab tracking)
  ∧ (resolveMarkdownView noTab tracking).1 = None
  ∧ contentEl (update noTab tracking) = Some NoActiveFile
  ∧ pollInterval (update noTab tracking) = Some 2
  ∧ monitors (update noTab tracking) = {[ 2 := mkTimer (PollTick (Some "a.md")) 500 ]}.
Proof.
  split.
  { unfold reachable, tracking.
    eapply rtc_l; [apply step_open|]. eapply rtc_l; [apply step_update|].
    eapply rtc_l; [apply step_update|]. apply rtc_refl. }
  split; [by vm_compute|]. split; [by vm_compute|]. split; [by vm_compute|].
  by vm_compute.
Qed.

(** C9, as the code has it.  Each poll that detects a change cancels the
    debounced refresh that is pending, if any, and schedules one due
    200 ms later.  After any number of such polls in a row exactly one
    debounced refresh is pending, due 200 ms after the last of them; when
    it fires [update] runs once and no debounced refresh is left.  The
    coalescing is of the monitor's detections; it is not of the host's
    [modify] notifications. *)
Theorem debounce_coalesces path v0 n v :
  reachable v0 →
  burst path v0 n v →
  0 < n
  ∧ ∃ h, updateTimeout v = Some h
         ∧ debounced v = {[ h := mkTimer DebouncedUpdate (now v + 200) ]}
         ∧ ∀ ws, fire ws h v = update ws (clearTimer h v)
                 ∧ debounced (fire ws h v) = ∅.
Proof.
  intros Hreach%reachable_Inv Hburst.
  pose proof (Inv_burst _ _ _ _ Hreach Hburst) as HI.
  assert (0 < n ∧ ∃ h, updateTimeout v = Some h
            ∧ debounced v = {[ h := mkTimer DebouncedUpdate (now v + 200) ]})
    as [Hn (h & Hu & Hone)].
  { destruct Hburst as [ws Hdet|n v d ws Hprev Hdet].
    - split; [lia|]. rewrite (pollTick_detects _ _ _ Hdet).
      destruct (debounceUpdate_pending v0 Hreach) as (Hnow & Hu & Hone).
      exists (nextHandle v0). rewrite Hnow. by split.
    - split; [lia|]. rewrite (pollTick_detects _ _ _ Hdet).
      assert (Inv (advance d v)) as HIa.
      { apply (Inv_same v); try done. exact (Inv_burst _ _ _ _ Hreach Hprev). }
      destruct (debounceUpdate_pending _ HIa) as (Hnow & Hu & Hone).
      exists (nextHandle (advance d v)). rewrite Hnow. by split. }
  split; [done|]. exists h. split; [done|]. split; [done|].
  intros ws. by eapply fire_debounced.
Qed.

Lemma debounce_coalesces_witness :
  0 < 2
  ∧ ∃ h, updateTimeout polledTwice = Some h
         ∧ debounced polledTwice = {[ h := mkTimer DebouncedUpdate (now polledTwice + 200) ]}
         ∧ ∀ ws, fire ws h polledTwice = update ws (clearTimer h polledTwice)
                 ∧ debounced (fire ws h polledTwice) = ∅.
Proof.
  apply (debounce_coalesces "a.md" (advance 500 tracking) 2 polledTwice).
  - unfold reachable, tracking.
    eapply rtc_l; [apply step_open|]. eapply rtc_l; [apply step_update|].
    eapply rtc_l; [apply step_time|]. apply rtc_refl.
  - unfold polledTwice. apply burst_more; [apply burst_one|].
    + exists 0, (js "TODO x TK"). repeat (split; [reflexivity|]). by vm_compute.
    + exists 0, (js "TODO x TK"). repeat (split; [reflexivity|]). by vm_compute.
Defined.

(** C9 as stated fails for modifications the host notifies.  In
    [settled] only the monitor is left, due at 1100 ms.  It sees an edit
    then and schedules the refresh for 1300 ms; a [modify] notification
    at 1150 ms, inside the window, runs [update] at once and the
    scheduled refresh runs it again at 1300 ms: two refreshes.  Two
    [modify] notifications 10 ms apart, with no poll between them, give
    two refreshes as well. *)
Lemma debounce_not_of_modify_counterexample :
  timers settled = {[ 2 := mkTimer (PollTick (Some "a.md")) 1100 ]}
  ∧ now settled = 600
  ∧ timers (run [Wait 500; TimerRuns edited 2] settled).1
    = {[ 2 := mkTimer (PollTick (Some "a.md")) 1600;
         4 := mkTimer DebouncedUpdate 1300 ]}
  ∧ (run [Wait 500; TimerRuns edited 2; Wait 50; Modify edited] settled).2 = 1
  ∧ debounced (run [Wait 500; TimerRuns edited 2; Wait 50; Modify edited] settled).1
    = {[ 4 := mkTimer DebouncedUpdate 1300 ]}
  ∧ (run [Wait 500; TimerRuns edited 2; Wait 50; Modify edited; Wait 150;
          TimerRuns edited 4] settled).2 = 2
  ∧ (run [Modify edited; Wait 10; Modify edited] settled).2 = 2.
Proof.
  split; [by vm_compute|]. split; [by vm_compute|]. split; [by vm_compute|].
  split; [by vm_compute|]. split; [by vm_compute|]. split; by vm_compute.
Qed.


(** ** Resolving the current document *)

Lemma resolveMarkdownView_valid ws v r :
  (resolveMarkdownView ws v).1 = Some r →
  is_Some (editor (viewOf ws r)) ∧ is_Some (file (viewOf ws r)).
Proof.
  unfold resolveMarkdownView.
  assert (∀ x, validView ws x = true →
            is_Some (editor (viewOf ws x)) ∧ is_Some (file (viewOf ws x))) as Hv.
  { intros x [?%bool_decide_eq_true ?%bool_decide_eq_true]%andb_prop. done. }
  destruct (currentMarkdownView v) as [r0|] eqn:E.
  - destruct (validView ws r0) eqn:Ev; simpl.
    + intros [= <-]. by apply Hv.
    + repeat case_match; simpl; intros; simplify_eq; by apply Hv.
  - repeat case_match; simpl; intros; simplify_eq; by apply Hv.
Qed.

(** X6. Whatever the stored view, the active view and the leaves are, a
    view that [resolveMarkdownView] returns has both its editor and its
    file: [update] never reads the text of a view that lost them. *)
Theorem resolve_valid ws v r :
  (resolveMarkdownView ws v).1 = Some r →
  is_Some (editor (viewOf ws r)) ∧ is_Some (file (viewOf ws r)).
Proof. apply resolveMarkdownView_valid. Qed.

Lemma resolve_valid_witness :
  is_Some (editor (viewOf switched 1)) ∧ is_Some (file (viewOf switched 1)).
Proof.
  apply (resolve_valid switched tracking 1). reflexivity.
Defined.

Lemma resolveMarkdownView_currentFile ws v :
  currentFile (resolveMarkdownView ws v).2 = currentFile v.
Proof. unfold resolveMarkdownView. by repeat case_match. Qed.

(** The state [update] reaches when it resolves the view [r]. *)
Lemma update_resolved ws v d r content path :
  contentEl v = Some d →
  (resolveMarkdownView ws v).1 = Some r →
  editor (viewOf ws r) = Some content →
  file (viewOf ws r) = Some path →
  let cf := if decide (path = EmptyString) then None else Some path in
  let base := mkView (Some Blank) (parseContent content) cf (updateTimeout v)
                (Some r) (pollInterval v) (now v) (nextHandle v) (timers v) in
  update ws v
  = setContent (renderItems (parseContent content))
      (if bool_decide (pollInterval v = None) || negb (bool_decide (Some path = cf))
       then setupEditorChangeListener ws r (stopPolling base) else base).
Proof.
  intros Hd Hr He Hf cf base. unfold update. rewrite Hd.
  pose proof (resolveMarkdownView_setContent ws Blank v) as H1. rewrite Hr in H1.
  pose proof (resolveMarkdownView_same ws (setContent Blank v)) as Hs.
  pose proof (resolveMarkdownView_currentFile ws (setContent Blank v)) as Hc.
  destruct (resolveMarkdownView ws (setContent Blank v)) as [mv v1].
  simpl in H1, Hs, Hc. subst mv. rewrite He, Hf.
  destruct Hs as (Ht & Hn & Hp & Hu & Hce & Hi & Hnow).
  assert (setItems (parseContent content)
            (setCurrentMarkdownView (Some r) (setCurrentFile cf v1)) = base) as Hbase.
  { unfold base, setItems, setCurrentMarkdownView, setCurrentFile. simpl.
    by rewrite Ht, Hn, Hp, Hu, Hce, Hnow. }
  fold cf. rewrite Hbase.
  replace (pollInterval base) with (pollInterval v) by done.
  replace (currentFile base) with cf by done.
  replace (TodoTkView.items
             (if bool_decide (pollInterval v = None) || negb (bool_decide (Some path = cf))
              then setupEditorChangeListener ws r (stopPolling base) else base))
    with (parseContent content); [done|].
  destruct (bool_decide (pollInterval v = None) || negb (bool_decide (Some path = cf)));
    [|done].
  unfold setupEditorChangeListener, stopPolling. simpl. by destruct (pollInterval v).
Qed.

Lemma update_unresolved ws v d :
  contentEl v = Some d →
  (resolveMarkdownView ws v).1 = None →
  update ws v
  = setCurrentMarkdownView None (setCurrentFile None (setContent NoActiveFile
      (resolveMarkdownView ws (setContent Blank v)).2)).
Proof.
  intros Hd Hnone. unfold update. rewrite Hd.
  pose proof (resolveMarkdownView_setContent ws Blank v) as Hr.
  rewrite Hnone in Hr.
  destruct (resolveMarkdownView ws (setContent Blank v)) as [mv v1].
  simpl in Hr. by subst mv.
Qed.

(** X7. A stored view that still has its editor and file stays the
    tracked one across [update], whatever the active view and the leaves
    are: the refresh shows the items of its text. *)
Theorem update_keeps_stored ws v d r content path :
  contentEl v = Some d →
  currentMarkdownView v = Some r →
  editor (viewOf ws r) = Some content →
  file (viewOf ws r) = Some path →
  currentMarkdownView (update ws v) = Some r
  ∧ items (update ws v) = parseContent content
  ∧ contentEl (update ws v) = Some (renderItems (parseContent content)).
Proof.
  intros Hd Hr He Hf.
  assert ((resolveMarkdownView ws v).1 = Some r) as Hres.
  { unfold resolveMarkdownView, validView. by rewrite Hr, He, Hf. }
  rewrite (update_resolved ws v d r content path Hd Hres He Hf).
  destruct (_ || _); [|done].
  unfold setupEditorChangeListener, stopPolling. simpl. by destruct (pollInterval v).
Qed.

Lemma update_keeps_stored_witness :
  currentMarkdownView (update (mkWorkspace (viewOf (oneTab (js "TK y") "a.md")) [0; 1] (Some 1)) tracking)
    = Some 0
  ∧ items (update (mkWorkspace (viewOf (oneTab (js "TK y") "a.md")) [0; 1] (Some 1)) tracking)
    = parseContent (js "TK y")
  ∧ contentEl (update (mkWorkspace (viewOf (oneTab (js "TK y") "a.md")) [0; 1] (Some 1)) tracking)
    = Some (renderItems (parseContent (js "TK y"))).
Proof.
  apply (update_keeps_stored
           (mkWorkspace (viewOf (oneTab (js "TK y") "a.md")) [0; 1] (Some 1))
           tracking (Outline [(TODO, js "x")]) 0 (js "TK y") "a.md").
  - reflexivity.
  - reflexivity.
  - reflexivity.
  - reflexivity.
Defined.

(** X8. The leaves are searched only when there is no active markdown
    view.  With no usable stored view, an active view that lacks its
    editor or file makes [update] show that no file is active, even when
    a leaf would qualify. *)
Theorem update_active_invalid ws v d r :
  contentEl v = Some d →
  match currentMarkdownView v with
  | Some r0 => validView ws r0 = false
  | None => True
  end →
  activeMarkdownView ws = Some r →
  validView ws r = false →
  contentEl (update ws v) = Some NoActiveFile
  ∧ currentFile (update ws v) = None
  ∧ currentMarkdownView (update ws v) = None.
Proof.
  intros Hd Hstored Ha Hv.
  assert ((resolveMarkdownView ws v).1 = None) as Hres.
  { unfold resolveMarkdownView. rewrite Ha, Hv.
    destruct (currentMarkdownView v) as [r0|]; [rewrite Hstored|];
      simpl; by destruct (markdownLeaves ws). }
  by rewrite (update_unresolved ws v d Hd Hres).
Qed.

Lemma update_active_invalid_witness :
  contentEl (update twoTabs (onOpen initial)) = Some NoActiveFile
  ∧ currentFile (update twoTabs (onOpen initial)) = None
  ∧ currentMarkdownView (update twoTabs (onOpen initial)) = None.
Proof.
  apply (update_active_invalid twoTabs (onOpen initial) Blank 0).
  - reflexivity.
  - exact I.
  - reflexivity.
  - reflexivity.
Defined.


(** ** Starting and stopping the monitor *)

Lemma monitors_lookup v h tm :
  monitors v !! h = Some tm ↔ timers v !! h = Some tm ∧ isMonitor tm = true.
Proof. unfold monitors. by rewrite map_lookup_filter_Some. Qed.

(** The monitors of a table that gained the one monitor it has. *)
Lemma monitors_insert_fresh (m : gmap nat Timer) h tm :
  isMonitor tm = true →
  (∀ h' tm', m !! h' = Some tm' → isMonitor tm' = false) →
  filter (λ e, isMonitor e.2 = true) (<[h := tm]> m) = {[ h := tm ]}.
Proof.
  intros Htm Hnone. apply map_eq. intros h'.
  destruct (decide (h' = h)) as [->|Hne].
  - rewrite lookup_singleton_eq. apply map_lookup_filter_Some.
    by rewrite lookup_insert_eq.
  - rewrite lookup_singleton_ne by done.
    destruct (filter _ _ !! h') as [tm'|] eqn:E; [|done].
    apply map_lookup_filter_Some in E as [Hl Hm]. simpl in Hm.
    rewrite lookup_insert_ne in Hl by done. by rewrite (Hnone _ _ Hl) in Hm.
Qed.

(** X9. When no monitor is running, a refresh that resolves a document
    starts one for that document: the only monitor afterwards is the new
    timer, it tracks the path of the resolved file and is due 500 ms
    later. *)
Theorem update_starts_monitor ws v d r content path :
  reachable v →
  contentEl v = Some d →
  pollInterval v = None →
  (resolveMarkdownView ws v).1 = Some r →
  editor (viewOf ws r) = Some content →
  file (viewOf ws r) = Some path →
  pollInterval (update ws v) = Some (nextHandle v)
  ∧ monitors (update ws v)
    = {[ nextHandle v := mkTimer (PollTick (Some path)) (now v + 500) ]}.
Proof.
  intros [Hfr _ _ Hm _]%reachable_Inv Hd Hp Hr He Hf.
  rewrite (update_resolved ws v d r content path Hd Hr He Hf).
  rewrite Hp. simpl. unfold setupEditorChangeListener, stopPolling. simpl.
  rewrite ?Hp. simpl. rewrite Hf. split; [done|].
  unfold monitors. simpl. apply monitors_insert_fresh; [done|].
  intros h' tm' Hl. apply not_true_is_false. intros Hmon.
  apply (Hm _ _ Hl) in Hmon. congruence.
Qed.

Lemma update_starts_monitor_witness :
  pollInterval (update (oneTab (js "TODO x") "a.md") (onOpen initial))
    = Some (nextHandle (onOpen initial))
  ∧ monitors (update (oneTab (js "TODO x") "a.md") (onOpen initial))
    = {[ nextHandle (onOpen initial)
         := mkTimer (PollTick (Some "a.md")) (now (onOpen initial) + 500) ]}.
Proof.
  apply (update_starts_monitor (oneTab (js "TODO x") "a.md") (onOpen initial)
           Blank 0 (js "TODO x") "a.md").
  - unfold reachable. eapply rtc_l; [apply step_open|]. apply rtc_refl.
  - reflexivity.
  - reflexivity.
  - reflexivity.
  - reflexivity.
  - reflexivity.
Defined.

Lemma t_eq (a b : t) :
  contentEl a = contentEl b → items a = items b → currentFile a = currentFile b →
  updateTimeout a = updateTimeout b → currentMarkdownView a = currentMarkdownView b →
  pollInterval a = pollInterval b → now a = now b → nextHandle a = nextHandle b →
  timers a = timers b → a = b.
Proof. destruct a, b. simpl. by intros -> -> -> -> -> -> -> -> ->. Qed.

Lemma update_closed ws v : contentEl v = None → update ws v = v.
Proof. intros H. unfold update. by rewrite H. Qed.

(** X10. [update] is idempotent on an unchanged workspace: a second
    refresh right after the first leaves every field and every timer as
    it is (the resolved file having a path that is not empty). *)
Theorem update_idempotent ws v :
  (∀ r path, (resolveMarkdownView ws v).1 = Some r →
             file (viewOf ws r) = Some path → path ≠ EmptyString) →
  update ws (update ws v) = update ws v.
Proof.
  intros Hpath.
  destruct (contentEl v) as [d|] eqn:Hd; [|by rewrite !(update_closed ws v Hd)].
  destruct (resolveMarkdownView ws v).1 as [r|] eqn:Hr.
  - destruct (resolveMarkdownView_valid ws v r Hr) as [[content He] [path Hf]].
    specialize (Hpath r path eq_refl Hf).
    pose proof (update_resolved ws v d r content path Hd Hr He Hf) as Hup.
    simpl in Hup. rewrite decide_False in Hup by done.
    rewrite (bool_decide_eq_true_2 (Some path = Some path)), orb_false_r in Hup by done.
    set (v' := update ws v) in *.
    assert (contentEl v' = Some (renderItems (parseContent content))
            ∧ items v' = parseContent content ∧ currentFile v' = Some path
            ∧ currentMarkdownView v' = Some r ∧ pollInterval v' ≠ None) as (Hc & Hi & Hcf & Hcm & Hpi).
    { rewrite Hup. destruct (bool_decide (pollInterval v = None)) eqn:Eb; simpl.
      - unfold setupEditorChangeListener, stopPolling. simpl.
        by destruct (pollInterval v).
      - apply bool_decide_eq_false in Eb. done. }
    assert ((resolveMarkdownView ws v').1 = Some r) as Hr'.
    { unfold resolveMarkdownView, validView. by rewrite Hcm, He, Hf. }
    rewrite (update_resolved ws v' _ r content path Hc Hr' He Hf).
    simpl. rewrite decide_False by done.
    rewrite (bool_decide_eq_true_2 (Some path = Some path)), orb_false_r by done.
    rewrite bool_decide_eq_false_2 by done.
    apply t_eq; simpl; try done. all: by rewrite ?Hc, ?Hi, ?Hcf, ?Hcm.
  - pose proof (update_unresolved ws v d Hd Hr) as Hup.
    pose proof (resolveMarkdownView_same ws (setContent Blank v)) as Hs.
    simpl in Hs. destruct Hs as (Ht & Hn & Hp & Hu & _ & Hi & Hnow).
    set (v' := update ws v) in *.
    assert ((resolveMarkdownView ws v').1 = None) as Hr'.
    { rewrite Hup. revert Hr. unfold resolveMarkdownView. simpl.
      by repeat case_match. }
    assert (contentEl v' = Some NoActiveFile) as Hc by (by rewrite Hup).
    rewrite (update_unresolved ws v' _ Hc Hr').
    pose proof (resolveMarkdownView_same ws (setContent Blank v')) as Hs'.
    simpl in Hs'. destruct Hs' as (Ht' & Hn' & Hp' & Hu' & _ & Hi' & Hnow').
    apply t_eq; simpl; rewrite ?Ht', ?Hn', ?Hp', ?Hu', ?Hi', ?Hnow'; try done.
    all: by rewrite Hup.
Qed.

Lemma update_idempotent_witness :
  update switched (update switched tracking) = update switched tracking.
Proof.
  apply (update_idempotent switched tracking).
  intros r path Hr Hf. vm_compute in Hr. injection Hr as <-.
  vm_compute in Hf. injection Hf as <-. discriminate.
Defined.

(** ** The polling callback and [onClose] *)

Lemma pollTick_not_tracking ws trackedFile v :
  ¬ tracks ws trackedFile v →
  pollTick ws trackedFile v = setCurrentMarkdownView None (stopPolling v).
Proof.
  intros Hn. unfold pollTick.
  destruct (currentMarkdownView v) as [r|] eqn:Hr; [|done].
  destruct (editor (viewOf ws r)) as [content|] eqn:He; [|done].
  destruct (file (viewOf ws r)) as [path|] eqn:Hf; [|done].
  case_bool_decide as Hb; [|done].
  destruct Hn. exists r, content, path. destruct Hb as [Hb1 Hb2].
  repeat split; congruence.
Qed.

Lemma monitors_stopPolling v : Inv v → monitors (stopPolling v) = ∅.
Proof.
  intros [_ _ _ Hm _]. apply map_eq. intros h. rewrite lookup_empty.
  destruct (monitors (stopPolling v) !! h) as [tm|] eqn:E; [|done].
  apply monitors_lookup in E as [Hl Hmon]. unfold stopPolling in Hl.
  destruct (pollInterval v) as [h0|] eqn:Ep; simpl in Hl.
  - apply lookup_delete_Some in Hl as [Hne Hl].
    apply (Hm _ _ Hl) in Hmon. congruence.
  - apply (Hm _ _ Hl) in Hmon. congruence.
Qed.

Lemma debounced_stopPolling v : Inv v → debounced (stopPolling v) = debounced v.
Proof.
  intros [_ _ _ Hm _]. unfold stopPolling.
  destruct (pollInterval v) as [h0|] eqn:Ep; [|done].
  apply map_eq. intros h. unfold debounced. simpl.
  rewrite !map_lookup_filter. destruct (decide (h = h0)) as [->|Hne].
  - rewrite lookup_delete_eq. simpl.
    destruct (timers v !! h0) as [tm|] eqn:El; [|done]. simpl.
    assert (isMonitor tm = true) as Hmon by (by apply (Hm _ _ El)).
    rewrite option_guard_False; [done|].
    unfold isMonitor, isDebounced in *. simpl. by destruct (callback tm).
  - by rewrite lookup_delete_ne.
Qed.

(** X11. A poll that finds the stored view gone, or showing another
    file than the one the monitor was started for, or another than
    [currentFile], ends the monitor: no monitor is left, the stored view
    is forgotten, and nothing is scheduled. *)
Theorem pollTick_stops ws trackedFile v :
  reachable v →
  ¬ tracks ws trackedFile v →
  pollInterval (pollTick ws trackedFile v) = None
  ∧ currentMarkdownView (pollTick ws trackedFile v) = None
  ∧ monitors (pollTick ws trackedFile v) = ∅
  ∧ debounced (pollTick ws trackedFile v) = debounced v
  ∧ updateTimeout (pollTick ws trackedFile v) = updateTimeout v.
Proof.
  intros HI%reachable_Inv Hn. rewrite (pollTick_not_tracking _ _ _ Hn).
  split; [apply stopPolling_None|]. split; [done|].
  split; [by apply monitors_stopPolling|].
  split; [by apply debounced_stopPolling|].
  unfold stopPolling. by destruct (pollInterval v).
Qed.

Lemma pollTick_stops_witness :
  pollInterval (pollTick switched (Some "a.md") retargeted) = None
  ∧ currentMarkdownView (pollTick switched (Some "a.md") retargeted) = None
  ∧ monitors (pollTick switched (Some "a.md") retargeted) = ∅
  ∧ debounced (pollTick switched (Some "a.md") retargeted) = debounced retargeted
  ∧ updateTimeout (pollTick switched (Some "a.md") retargeted) = updateTimeout retargeted.
Proof.
  apply (pollTick_stops switched (Some "a.md") retargeted).
  - unfold reachable, retargeted, tracking.
    eapply rtc_l; [apply step_open|]. eapply rtc_l; [apply step_update|].
    eapply rtc_l; [apply step_update|]. apply rtc_refl.
  - intros (r & content & path & _ & _ & _ & Ht & Hc).
    vm_compute in Hc. congruence.
Defined.

Lemma pollTick_shown ws trackedFile v :
  items (pollTick ws trackedFile v) = items v
  ∧ contentEl (pollTick ws trackedFile v) = contentEl v
  ∧ currentFile (pollTick ws trackedFile v) = currentFile v.
Proof.
  unfold pollTick. repeat case_match; try done;
    unfold debounceUpdate, stopPolling; simpl; by repeat case_match.
Qed.

Lemma onClose_shown v :
  items (onClose v) = items v
  ∧ contentEl (onClose v) = contentEl v
  ∧ currentFile (onClose v) = currentFile v.
Proof. unfold onClose, stopPolling. simpl. by repeat case_match. Qed.

(** X12. The polling callback and [onClose] never write what is shown:
    [items], the display and [currentFile] are as before. *)
Theorem display_only_written_by_update ws trackedFile v :
  (items (pollTick ws trackedFile v) = items v
   ∧ contentEl (pollTick ws trackedFile v) = contentEl v
   ∧ currentFile (pollTick ws trackedFile v) = currentFile v)
  ∧ (items (onClose v) = items v
     ∧ contentEl (onClose v) = contentEl v
     ∧ currentFile (onClose v) = currentFile v).
Proof. split; [apply pollTick_shown|apply onClose_shown]. Qed.

(** X13. After [onClose] no monitor runs and no debounced refresh is
    pending, the handles and the stored view are cleared, and closing
    again changes nothing. *)
Theorem onClose_cancels v :
  reachable v →
  pollInterval (onClose v) = None
  ∧ updateTimeout (onClose v) = None
  ∧ currentMarkdownView (onClose v) = None
  ∧ monitors (onClose v) = ∅
  ∧ debounced (onClose v) = ∅
  ∧ onClose (onClose v) = onClose v.
Proof.
  intros Hreach.
  assert (reachable (onClose v)) as Hreach'.
  { unfold reachable. eapply rtc_r; [exact Hreach|apply step_close]. }
  destruct (reachable_Inv _ Hreach') as [_ _ _ Hm Hd].
  assert (pollInterval (onClose v) = None) as Hp.
  { unfold onClose. simpl. apply stopPolling_None. }
  assert (updateTimeout (onClose v) = None) as Hu.
  { unfold onClose, stopPolling. by repeat case_match. }
  split; [done|]. split; [done|]. split; [done|]. split; [|split].
  - apply map_eq. intros h. rewrite lookup_empty.
    destruct (monitors (onClose v) !! h) as [tm|] eqn:E; [|done].
    apply monitors_lookup in E as [Hl Hmon]. apply (Hm _ _ Hl) in Hmon. congruence.
  - apply map_eq. intros h. rewrite lookup_empty.
    destruct (debounced (onClose v) !! h) as [tm|] eqn:E; [|done].
    apply debounced_lookup in E as [Hl Hdb]. apply (Hd _ _ Hl) in Hdb. congruence.
  - set (w := onClose v) in *. unfold onClose at 1, stopPolling.
    rewrite Hu, Hp. by apply t_eq.
Qed.

Lemma onClose_cancels_witness :
  pollInterval (onClose tracking) = None
  ∧ updateTimeout (onClose tracking) = None
  ∧ currentMarkdownView (onClose tracking) = None
  ∧ monitors (onClose tracking) = ∅
  ∧ debounced (onClose tracking) = ∅
  ∧ onClose (onClose tracking) = onClose tracking.
Proof.
  apply (onClose_cancels tracking).
  unfold reachable, tracking.
  eapply rtc_l; [apply step_open|]. eapply rtc_l; [apply step_update|].
  apply rtc_refl.
Defined.

(** ** What every reachable state has *)

Lemma Live_same v v' :
  timers v' = timers v → pollInterval v' = pollInterval v → now v ≤ now v' →
  Live v → Live v'.
Proof.
  intros Ht Hp Hn [Hl Hd]. constructor.
  - intros h Hh. rewrite Hp in Hh. rewrite Ht. by apply Hl.
  - intros h tm Hh. rewrite Ht in Hh. specialize (Hd _ _ Hh). lia.
Qed.

Lemma Live_stopPolling v : Live v → Live (stopPolling v).
Proof.
  intros [Hl Hd]. unfold stopPolling.
  destruct (pollInterval v) as [h0|] eqn:E; [|by constructor; rewrite ?E].
  constructor; simpl; [done|].
  intros h tm [_ Hh]%lookup_delete_Some. by apply (Hd _ _ Hh).
Qed.

Lemma Live_setupEditorChangeListener ws r v :
  Live v → Live (setupEditorChangeListener ws r v).
Proof.
  intros [Hl Hd]. unfold setupEditorChangeListener. simpl.
  destruct (pollInterval v) as [h0|] eqn:E; constructor; simpl.
  - intros h [= <-]. eexists. by rewrite lookup_insert_eq.
  - intros h tm [[<- <-]|[_ [_ Hh]%lookup_delete_Some]]%lookup_insert_Some;
      [simpl; lia|by apply (Hd _ _ Hh)].
  - intros h [= <-]. eexists. by rewrite lookup_insert_eq.
  - intros h tm [[<- <-]|[_ Hh]]%lookup_insert_Some; [simpl; lia|by apply (Hd _ _ Hh)].
Qed.

Lemma Live_clearTimer h v :
  (∀ tm, timers v !! h = Some tm → isMonitor tm = false) →
  Live v → Live (clearTimer h v).
Proof.
  intros Hnm [Hl Hd]. constructor; simpl.
  - intros h' Hp. destruct (Hl _ Hp) as (tm & Hh & Hmon). exists tm. split; [|done].
    apply lookup_delete_Some. split; [|done]. intros ->.
    rewrite (Hnm _ Hh) in Hmon. done.
  - intros h' tm [_ Hh]%lookup_delete_Some. by apply (Hd _ _ Hh).
Qed.

Lemma Live_setTimer cb v :
  Inv v → Live v → Live (setTimer cb (delayOf cb) v).2.
Proof.
  intros [Hf _ _ _ _] [Hl Hd]. constructor; simpl.
  - intros h Hp. destruct (Hl _ Hp) as (tm & Hh & Hmon). exists tm. split; [|done].
    rewrite lookup_insert_ne; [done|]. apply Hf in Hh. lia.
  - intros h tm [[<- <-]|[_ Hh]]%lookup_insert_Some; [simpl; lia|by apply (Hd _ _ Hh)].
Qed.

Lemma Live_debounceUpdate v : Inv v → Live v → Live (debounceUpdate v).
Proof.
  intros HI HL.
  assert (Live (match updateTimeout v with
                | Some h => clearTimer h v
                | None => v
                end)) as HL1.
  { destruct (updateTimeout v) as [h0|] eqn:E; [|done].
    apply Live_clearTimer; [|done]. intros tm Hh.
    assert (isDebounced tm = true) as Hdb by (by apply (inv_debounced v HI _ _ Hh)).
    unfold isMonitor, isDebounced in *. by destruct (callback tm). }
  assert (Inv (match updateTimeout v with
               | Some h => clearTimer h v
               | None => v
               end)) as HI1.
  { destruct (updateTimeout v); [by apply Inv_clearTimer|done]. }
  pose proof (Live_setTimer DebouncedUpdate _ HI1 HL1) as HL2.
  unfold debounceUpdate. revert HL2. simpl.
  apply Live_same; by destruct (updateTimeout v).
Qed.

Lemma Live_pollTick ws trackedFile v : Inv v → Live v → Live (pollTick ws trackedFile v).
Proof.
  intros HI HL. unfold pollTick.
  repeat case_match; try done;
    try (by apply Live_debounceUpdate);
    by apply (Live_same (stopPolling v)), Live_stopPolling.
Qed.

Lemma Live_update ws v : Live v → Live (update ws v).
Proof.
  intros HL. unfold update.
  destruct (contentEl v); [|done].
  destruct (resolveMarkdownView ws (setContent Blank v)) as [mv v1] eqn:Er.
  pose proof (resolveMarkdownView_same ws (setContent Blank v)) as Hs.
  rewrite Er in Hs. simpl in Hs. destruct Hs as (Ht & Hn & Hp & Hu & _ & _ & Hnow).
  assert (Live v1) as HL1 by (apply (Live_same v); [done..|lia|done]).
  destruct mv as [r|]; [|by apply (Live_same v1)].
  destruct (editor (viewOf ws r)), (file (viewOf ws r)); try by apply (Live_same v1).
  match goal with |- Live (setContent _ ?x) => apply (Live_same x); try done end.
  case_match; [|by apply (Live_same v1)].
  apply Live_setupEditorChangeListener, Live_stopPolling. by apply (Live_same v1).
Qed.

Lemma not_monitor_callback tm :
  (∀ tf, callback tm ≠ PollTick tf) → isMonitor tm = false.
Proof. unfold isMonitor. destruct (callback tm); [|done..]. by intros H; destruct (H trackedFile). Qed.

Lemma Live_fire ws h v : Inv v → Live v → Live (fire ws h v).
Proof.
  intros HI HL. unfold fire.
  destruct (timers v !! h) as [tm|] eqn:Eh; [|done].
  destruct (callback tm) as [trackedFile| | |] eqn:Ec.
  - apply Live_pollTick.
    + rewrite <-Ec. by apply Inv_rearm.
    + destruct HL as [Hl Hd]. constructor; simpl.
      * intros h' Hp. destruct (Hl _ Hp) as (tm' & Hh & Hmon).
        destruct (decide (h' = h)) as [->|Hne].
        -- eexists. by rewrite lookup_insert_eq.
        -- exists tm'. by rewrite lookup_insert_ne.
      * intros h' tm' [[<- <-]|[_ Hh]]%lookup_insert_Some; [simpl; lia|by apply (Hd _ _ Hh)].
  - apply Live_update, Live_clearTimer; [|done].
    intros tm' Hh. apply not_monitor_callback. intros tf. congruence.
  - apply (Live_setTimer OpenRetry).
    + by apply Inv_update, Inv_clearTimer.
    + apply Live_update, Live_clearTimer; [|done].
      intros tm' Hh. apply not_monitor_callback. intros tf. congruence.
  - assert (Live (clearTimer h v)) as HL1.
    { apply Live_clearTimer; [|done].
      intros tm' Hh. apply not_monitor_callback. intros tf. congruence. }
    simpl. destruct (currentFile v); [done|]. by apply Live_update.
Qed.

Lemma Live_onClose v : Inv v → Live v → Live (onClose v).
Proof.
  intros HI HL. unfold onClose.
  match goal with |- Live (setCurrentMarkdownView _ ?x) => apply (Live_same x); try done end.
  apply Live_stopPolling.
  destruct (updateTimeout v) as [h|] eqn:E; [|done].
  apply (Live_same (clearTimer h v)); [done..|].
  apply Live_clearTimer; [|done]. intros tm Hh.
  assert (isDebounced tm = true) as Hdb by (by apply (inv_debounced v HI _ _ Hh)).
  unfold isMonitor, isDebounced in *. by destruct (callback tm).
Qed.

Lemma reachable_Live v : reachable v → Live v.
Proof.
  unfold reachable. revert v. apply rtc_ind_r.
  - constructor; simpl; [done|]. intros h tm Hh. by rewrite lookup_empty in Hh.
  - intros v1 v2 Hreach Hstep HL. pose proof (reachable_Inv _ Hreach) as HI.
    destruct Hstep.
    + unfold onOpen. apply (Live_setTimer OpenFirst); [by apply (Inv_same v)|].
      by apply (Live_same v).
    + by apply Live_onClose.
    + by apply Live_update.
    + by apply Live_fire.
    + apply (Live_same v); [done..|simpl; lia|done].
Qed.

(** X14. [pollInterval] and the monitors agree in every reachable state:
    with no handle stored no monitor runs; with a handle stored that
    timer is the one monitor, and it is due within 500 ms. *)
Theorem monitor_is_poll_handle v :
  reachable v →
  match pollInterval v with
  | None => monitors v = ∅
  | Some h => ∃ trackedFile d,
      monitors v = {[ h := mkTimer (PollTick trackedFile) d ]} ∧ d ≤ now v + 500
  end.
Proof.
  intros Hreach. destruct (reachable_Inv _ Hreach) as [_ _ _ Hm _].
  destruct (reachable_Live _ Hreach) as [Hl Hd].
  destruct (pollInterval v) as [h|] eqn:Ep.
  - destruct (Hl h eq_refl) as ([cb d] & Hh & Hmon).
    destruct cb as [trackedFile| | |]; try done.
    exists trackedFile, d. split; [|apply (Hd _ _ Hh)].
    apply map_eq. intros h'. destruct (decide (h' = h)) as [->|Hne].
    + rewrite lookup_singleton_eq. by apply monitors_lookup.
    + rewrite lookup_singleton_ne by done.
      destruct (monitors v !! h') as [tm|] eqn:E; [|done].
      apply monitors_lookup in E as [Hl' Hmon']. apply (Hm _ _ Hl') in Hmon'.
      congruence.
  - apply map_eq. intros h. rewrite lookup_empty.
    destruct (monitors v !! h) as [tm|] eqn:E; [|done].
    apply monitors_lookup in E as [Hl' Hmon']. apply (Hm _ _ Hl') in Hmon'.
    congruence.
Qed.

Lemma monitor_is_poll_handle_witness :
  ∃ trackedFile d,
    monitors retargeted = {[ 2 := mkTimer (PollTick trackedFile) d ]}
    ∧ d ≤ now retargeted + 500.
Proof.
  apply (monitor_is_poll_handle retargeted).
  unfold reachable, retargeted, tracking.
  eapply rtc_l; [apply step_open|]. eapply rtc_l; [apply step_update|].
  eapply rtc_l; [apply step_update|]. apply rtc_refl.
Defined.

(** X15. At most one debounced refresh is pending in a reachable state;
    it is the timer [updateTimeout] names and it is due within 200 ms. *)
Theorem debounced_is_update_handle v :
  reachable v →
  debounced v = ∅
  ∨ ∃ h d, updateTimeout v = Some h
           ∧ debounced v = {[ h := mkTimer DebouncedUpdate d ]}
           ∧ d ≤ now v + 200.
Proof.
  intros Hreach. destruct (reachable_Inv _ Hreach) as [_ _ _ _ Hdb].
  destruct (reachable_Live _ Hreach) as [_ Hd].
  assert (∀ h tm, debounced v !! h = Some tm →
            updateTimeout v = Some h ∧ ∃ d, tm = mkTimer DebouncedUpdate d ∧ d ≤ now v + 200)
    as Hall.
  { intros h [cb d] [Hh Hisd]%debounced_lookup. split; [by apply (Hdb _ _ Hh)|].
    destruct cb; try done. exists d. split; [done|]. apply (Hd _ _ Hh). }
  destruct (updateTimeout v) as [h|] eqn:Eu.
  - destruct (debounced v !! h) as [tm|] eqn:Eh.
    + right. destruct (Hall _ _ Eh) as (_ & d & -> & Hle).
      exists h, d. split; [done|]. split; [|done].
      apply map_eq. intros h'. destruct (decide (h' = h)) as [->|Hne].
      * by rewrite lookup_singleton_eq.
      * rewrite lookup_singleton_ne by done.
        destruct (debounced v !! h') as [tm'|] eqn:E; [|done].
        destruct (Hall _ _ E) as [? _]. congruence.
    + left. apply map_eq. intros h'. rewrite lookup_empty.
      destruct (debounced v !! h') as [tm'|] eqn:E; [|done].
      destruct (Hall _ _ E) as [? _]. congruence.
  - left. apply map_eq. intros h'. rewrite lookup_empty.
    destruct (debounced v !! h') as [tm'|] eqn:E; [|done].
    destruct (Hall _ _ E) as [? _]. congruence.
Qed.

Lemma debounced_is_update_handle_witness :
  debounced detected ≠ ∅
  ∧ (debounced detected = ∅
     ∨ ∃ h d, updateTimeout detected = Some h
              ∧ debounced detected = {[ h := mkTimer DebouncedUpdate d ]}
              ∧ d ≤ now detected + 200).
Proof.
  split; [by vm_compute|].
  apply (debounced_is_update_handle detected).
  unfold reachable, detected, settled.
  eapply rtc_l; [apply step_open|]. eapply rtc_l; [apply (step_time 100)|].
  eapply rtc_l;
    [by eapply (step_fire (oneTab (js "TODO x") "a.md") 1); vm_compute|].
  eapply rtc_l; [apply (step_time 500)|].
  eapply rtc_l;
    [by eapply (step_fire (oneTab (js "TODO x") "a.md") 2); vm_compute|].
  eapply rtc_l;
    [by eapply (step_fire (oneTab (js "TODO x") "a.md") 3); vm_compute|].
  eapply rtc_l; [apply (step_time 500)|].
  eapply rtc_l; [by eapply (step_fire edited 2); vm_compute|].
  apply rtc_refl.
Defined.

Lemma Shown_same v v' :
  contentEl v' = contentEl v → items v' = items v → currentFile v' = currentFile v →
  Shown v → Shown v'.
Proof. intros Hc Hi Hf [? ? ? ?]. constructor; rewrite ?Hc, ?Hi, ?Hf; done. Qed.

Lemma setup_shown ws r v :
  items (setupEditorChangeListener ws r v) = items v
  ∧ contentEl (setupEditorChangeListener ws r v) = contentEl v
  ∧ currentFile (setupEditorChangeListener ws r v) = currentFile v
  ∧ currentMarkdownView (setupEditorChangeListener ws r v) = Some r.
Proof. unfold setupEditorChangeListener. simpl. by destruct (pollInterval v). Qed.

Lemma stopPolling_shown v :
  items (stopPolling v) = items v
  ∧ contentEl (stopPolling v) = contentEl v
  ∧ currentFile (stopPolling v) = currentFile v
  ∧ currentMarkdownView (stopPolling v) = currentMarkdownView v.
Proof. unfold stopPolling. by destruct (pollInterval v). Qed.

(** What [update] leaves in the shown fields when it resolves [r]. *)
Lemma update_resolved_shown ws v d r content path :
  contentEl v = Some d →
  (resolveMarkdownView ws v).1 = Some r →
  editor (viewOf ws r) = Some content →
  file (viewOf ws r) = Some path →
  contentEl (update ws v) = Some (renderItems (parseContent content))
  ∧ items (update ws v) = parseContent content
  ∧ currentFile (update ws v) = (if decide (path = EmptyString) then None else Some path)
  ∧ currentMarkdownView (update ws v) = Some r.
Proof.
  intros Hd Hr He Hf. rewrite (update_resolved ws v d r content path Hd Hr He Hf).
  destruct (_ || _); [|done].
  unfold setupEditorChangeListener, stopPolling. simpl. by destruct (pollInterval v).
Qed.

Lemma Shown_update ws v : Shown v → Shown (update ws v).
Proof.
  intros HS.
  destruct (contentEl v) as [d|] eqn:Hd; [|by rewrite (update_closed ws v Hd)].
  destruct (resolveMarkdownView ws v).1 as [r|] eqn:Hr.
  - destruct (resolveMarkdownView_valid ws v r Hr) as [[content He] [path Hf]].
    destruct (update_resolved_shown ws v d r content path Hd Hr He Hf)
      as (Hc & Hi & Hcf & _).
    constructor; rewrite ?Hc, ?Hi, ?Hcf.
    + intros entries [= Hren]. unfold renderItems in Hren.
      destruct (parseContent content); [done|]. by injection Hren as <-.
    + intros [= Hren]. unfold renderItems in Hren. by destruct (parseContent content).
    + by exists content.
    + by destruct (decide (path = EmptyString)); [|intros [= ?]].
  - rewrite (update_unresolved ws v d Hd Hr).
    pose proof (resolveMarkdownView_same ws (setContent Blank v)) as Hs.
    simpl in Hs. destruct Hs as (_ & _ & _ & _ & _ & Hi & _).
    destruct HS as [_ _ Hit _]. constructor; simpl; try done. by rewrite Hi.
Qed.

Lemma Shown_clearTimer h v : Shown v → Shown (clearTimer h v).
Proof. by apply Shown_same. Qed.

Lemma Shown_fire ws h v : Shown v → Shown (fire ws h v).
Proof.
  intros HS. unfold fire.
  destruct (timers v !! h) as [tm|] eqn:Eh; [|done].
  destruct (callback tm) as [trackedFile| | |] eqn:Ec.
  - match goal with |- Shown (pollTick _ _ ?x) =>
      destruct (pollTick_shown ws trackedFile x) as (Hi & Hc & Hf);
      apply (Shown_same x); [done..|] end.
    by apply (Shown_same v).
  - by apply Shown_update, Shown_clearTimer.
  - match goal with |- Shown (setTimer _ _ ?x).2 => apply (Shown_same x); [done..|] end.
    by apply Shown_update, Shown_clearTimer.
  - simpl. destruct (currentFile v); [by apply Shown_clearTimer|].
    by apply Shown_update, Shown_clearTimer.
Qed.

Lemma reachable_Shown v : reachable v → Shown v.
Proof.
  unfold reachable. revert v. apply rtc_ind_r.
  - constructor; simpl; try done. by exists [].
  - intros v1 v2 _ Hstep HS. destruct Hstep.
    + destruct HS as [_ _ Hit Hf]. constructor; simpl; done.
    + destruct (onClose_shown v) as (Hi & Hc & Hf). by apply (Shown_same v).
    + by apply Shown_update.
    + by apply Shown_fire.
    + by apply (Shown_same v).
Qed.

(** X16. In every reachable state the display is the rendering of
    [items]: an outline lists the kind and snippet of each item in
    order and [items] is not empty, the message for no items stands over
    an empty [items]; [items] is the extractor's output on some text and
    [currentFile] is never the empty path. *)
Theorem display_matches_items v :
  reachable v →
  (∀ entries, contentEl v = Some (Outline entries) →
     items v ≠ [] ∧ entries = (λ i, (type i, text i)) <$> items v)
  ∧ (contentEl v = Some NoItemsFound → items v = [])
  ∧ (∃ content, items v = parseContent content)
  ∧ currentFile v ≠ Some EmptyString.
Proof. intros [? ? ? ?]%reachable_Shown. done. Qed.

Lemma display_matches_items_witness :
  (∀ entries, contentEl retargeted = Some (Outline entries) →
     items retargeted ≠ [] ∧ entries = (λ i, (type i, text i)) <$> items retargeted)
  ∧ (contentEl retargeted = Some NoItemsFound → items retargeted = [])
  ∧ (∃ content, items retargeted = parseContent content)
  ∧ currentFile retargeted ≠ Some EmptyString.
Proof.
  apply (display_matches_items retargeted).
  unfold reachable, retargeted, tracking.
  eapply rtc_l; [apply step_open|]. eapply rtc_l; [apply step_update|].
  eapply rtc_l; [apply step_update|]. apply rtc_refl.
Defined.

(** X17. [onClose] cancels the monitor and the debounced refresh only:
    a timer of [onOpen] that is still pending stays pending after the
    panel was closed. *)
Theorem onClose_keeps_open_timers v h tm :
  reachable v →
  timers v !! h = Some tm →
  callback tm = OpenFirst ∨ callback tm = OpenRetry →
  timers (onClose v) !! h = Some tm.
Proof.
  intros [_ _ _ Hm Hd]%reachable_Inv Hh Hcb.
  assert (pollInterval v ≠ Some h) as Hp.
  { intros Hp%(Hm _ _ Hh). unfold isMonitor in Hp. by destruct Hcb as [Hc|Hc]; rewrite Hc in Hp. }
  assert (updateTimeout v ≠ Some h) as Hu.
  { intros Hu%(Hd _ _ Hh). unfold isDebounced in Hu. by destruct Hcb as [Hc|Hc]; rewrite Hc in Hu. }
  unfold onClose, stopPolling. simpl.
  destruct (updateTimeout v) as [h1|]; simpl;
    destruct (pollInterval v) as [h2|]; simpl;
    rewrite ?lookup_delete_ne by congruence; done.
Qed.

Lemma onClose_keeps_open_timers_witness :
  timers (onClose (onOpen initial)) !! 1 = Some (mkTimer OpenFirst 100).
Proof.
  apply (onClose_keeps_open_timers (onOpen initial) 1 (mkTimer OpenFirst 100)).
  - unfold reachable. eapply rtc_l; [apply step_open|]. apply rtc_refl.
  - reflexivity.
  - left. reflexivity.
Defined.

(** ** [jumpToLine] *)

Lemma jumpToLine_calls vault ws v item :
  jumpToLine vault ws v item = []
  ∨ ∃ cf r content,
      currentFile v = Some cf ∧ cf ∈ vault
      ∧ r ∈ markdownLeaves ws
      ∧ file (viewOf ws r) = Some cf
      ∧ editor (viewOf ws r) = Some content
      ∧ jumpToLine vault ws v item
        = [SetActiveLeaf r; SetCursor r (line item) 0;
           ScrollIntoView r (line item); Focus r].
Proof.
  unfold jumpToLine.
  destruct (currentFile v) as [cf|]; [|by left].
  destruct (decide (cf = EmptyString)); [by left|].
  destruct (decide (cf ∈ vault)); [|by left].
  destruct (head _) as [r|] eqn:Eh; [|by left].
  apply head_Some_elem_of, list_elem_of_filter in Eh as [Hf Hin].
  destruct (editor (viewOf ws r)) as [content|] eqn:He; [|by left].
  right. exists cf, r, content. done.
Qed.

(** X18. Every call [jumpToLine] makes goes to a markdown leaf that shows
    the tracked file and has its editor, the file being in the vault; it
    never moves the cursor of a view showing another file. *)
Theorem jumpToLine_target vault ws v item c :
  c ∈ jumpToLine vault ws v item →
  ∃ cf, currentFile v = Some cf ∧ cf ∈ vault
        ∧ callTarget c ∈ markdownLeaves ws
        ∧ file (viewOf ws (callTarget c)) = Some cf
        ∧ is_Some (editor (viewOf ws (callTarget c))).
Proof.
  destruct (jumpToLine_calls vault ws v item)
    as [->|(cf & r & content & Hcf & Hv & Hin & Hf & He & ->)].
  - by intros ?%elem_of_nil.
  - intros Hc. exists cf.
    assert (callTarget c = r) as ->.
    { repeat (apply elem_of_cons in Hc as [->|Hc]; [done|]). by apply elem_of_nil in Hc. }
    rewrite He. eauto.
Qed.

Lemma jumpToLine_target_witness :
  ∃ cf, currentFile tracking = Some cf ∧ cf ∈ ({[ "a.md" ]} : gset string)
        ∧ callTarget (SetCursor 0 3 0) ∈ markdownLeaves (oneTab (js "TODO x") "a.md")
        ∧ file (viewOf (oneTab (js "TODO x") "a.md") (callTarget (SetCursor 0 3 0))) = Some cf
        ∧ is_Some (editor (viewOf (oneTab (js "TODO x") "a.md") (callTarget (SetCursor 0 3 0)))).
Proof.
  apply (jumpToLine_target {[ "a.md" ]} (oneTab (js "TODO x") "a.md") tracking
           (mkItem TODO (js "x") 3 0)).
  vm_compute. apply list_elem_of_further, list_elem_of_here.
Defined.

(** X19. After a refresh that found no document a click on any item is
    a no-op, whatever the workspace has become: [jumpToLine] makes no
    call. *)
Theorem jumpToLine_after_no_document ws v d vault ws' item :
  contentEl v = Some d →
  (resolveMarkdownView ws v).1 = None →
  jumpToLine vault ws' (update ws v) item = [].
Proof.
  intros Hd Hr. rewrite (update_unresolved ws v d Hd Hr). done.
Qed.

Lemma jumpToLine_after_no_document_witness :
  jumpToLine {[ "a.md" ]} (oneTab (js "TODO x") "a.md") (update noTab tracking)
    (mkItem TODO (js "x") 0 0) = [].
Proof.
  apply (jumpToLine_after_no_document noTab tracking (Outline [(TODO, js "x")])).
  - reflexivity.
  - reflexivity.
Defined.

(** X20. A click on an item of a refresh puts the cursor at column 0 of
    a line the refreshed text has. *)
Theorem jumpToLine_cursor_in_document ws v d r content path vault ws' item r' ln ch :
  contentEl v = Some d →
  (resolveMarkdownView ws v).1 = Some r →
  editor (viewOf ws r) = Some content →
  file (viewOf ws r) = Some path →
  item ∈ items (update ws v) →
  SetCursor r' ln ch ∈ jumpToLine vault ws' (update ws v) item →
  ln < length (splitLines content) ∧ ch = 0.
Proof.
  intros Hd Hr He Hf Hitem Hcall.
  destruct (update_resolved_shown ws v d r content path Hd Hr He Hf) as (_ & Hi & _).
  rewrite Hi in Hitem. apply item_line_lt in Hitem.
  destruct (jumpToLine_calls vault ws' (update ws v) item)
    as [Hnil|(cf & r0 & c0 & _ & _ & _ & _ & _ & Hcalls)].
  - rewrite Hnil in Hcall. by apply elem_of_nil in Hcall.
  - rewrite Hcalls in Hcall.
    repeat (apply elem_of_cons in Hcall as [Heq|Hcall]; [try done|]).
    + by injection Heq as -> -> ->.
    + by apply elem_of_nil in Hcall.
Qed.

Lemma jumpToLine_cursor_in_document_witness :
  0 < length (splitLines (js "TODO x")) ∧ 0 = 0.
Proof.
  apply (jumpToLine_cursor_in_document (oneTab (js "TODO x") "a.md") (onOpen initial)
           Blank 0 (js "TODO x") "a.md" {[ "a.md" ]} (oneTab (js "TODO x") "a.md")
           (mkItem TODO (js "x") 0 0) 0 0 0).
  - reflexivity.
  - reflexivity.
  - reflexivity.
  - reflexivity.
  - vm_compute. apply list_elem_of_here.
  - vm_compute. apply list_elem_of_further, list_elem_of_here.
Defined.

(** ** [update] beside the monitor's refresh *)

Lemma update_keeps_timer ws v h tm :
  Inv v → timers v !! h = Some tm → isMonitor tm = false →
  timers (update ws v) !! h = Some tm.
Proof.
  intros [Hfr _ _ Hm _] Hh Hnm. unfold update. destruct (contentEl v); [|done].
  destruct (resolveMarkdownView ws (setContent Blank v)) as [mv v1] eqn:Er.
  pose proof (resolveMarkdownView_same ws (setContent Blank v)) as Hs.
  rewrite Er in Hs. simpl in Hs. destruct Hs as (Ht & Hn & Hp & _).
  destruct mv as [r|]; [|simpl; by rewrite Ht].
  destruct (editor (viewOf ws r)), (file (viewOf ws r)); try (simpl; by rewrite Ht).
  simpl. case_match; [|simpl; by rewrite Ht].
  unfold setupEditorChangeListener. simpl. rewrite stopPolling_None. simpl.
  rewrite lookup_insert_ne.
  - unfold stopPolling. simpl. rewrite Hp.
    destruct (pollInterval v) as [h0|] eqn:E; simpl; rewrite Ht; [|done].
    rewrite lookup_delete_ne; [done|]. intros ->.
    assert (isMonitor tm = true) by (by apply (Hm _ _ Hh)). congruence.
  - unfold stopPolling. simpl. rewrite Hp.
    destruct (pollInterval v); simpl; rewrite Hn; apply Hfr in Hh; lia.
Qed.

(** X21. A refresh never cancels the debounced refresh: the pending one,
    if any, is still pending after [update] and will run it again. *)
Theorem update_keeps_debounced ws v :
  reachable v →
  debounced (update ws v) = debounced v
  ∧ updateTimeout (update ws v) = updateTimeout v.
Proof.
  intros HI%reachable_Inv. split.
  - apply map_eq. intros h.
    destruct (debounced v !! h) as [tm|] eqn:E.
    + apply debounced_lookup in E as [Hh Hdb]. apply debounced_lookup.
      split; [|done]. apply update_keeps_timer; [done..|].
      unfold isMonitor, isDebounced in *. by destruct (callback tm).
    + destruct (debounced (update ws v) !! h) as [tm|] eqn:E'; [|done].
      apply debounced_lookup in E' as [Hh Hdb].
      apply update_adds_no_debounced in Hh; [|done].
      assert (debounced v !! h = Some tm) as Hin by (by apply debounced_lookup).
      congruence.
  - destruct (contentEl v) as [d|] eqn:Hd; [|by rewrite (update_closed ws v Hd)].
    destruct (resolveMarkdownView ws v).1 as [r|] eqn:Hr.
    + destruct (resolveMarkdownView_valid ws v r Hr) as [[content He] [path Hf]].
      rewrite (update_resolved ws v d r content path Hd Hr He Hf).
      destruct (_ || _); [|done].
      unfold setupEditorChangeListener, stopPolling. simpl.
      by destruct (pollInterval v).
    + rewrite (update_unresolved ws v d Hd Hr).
      pose proof (resolveMarkdownView_same ws (setContent Blank v)) as Hs.
      simpl in Hs. by destruct Hs as (_ & _ & _ & Hu & _).
Qed.

Lemma update_keeps_debounced_witness :
  debounced detected = {[ 4 := mkTimer DebouncedUpdate 1300 ]}
  ∧ (debounced (update edited detected) = debounced detected
     ∧ updateTimeout (update edited detected) = updateTimeout detected).
Proof.
  split; [by vm_compute|].
  apply (update_keeps_debounced edited detected).
  unfold reachable, detected, settled.
  eapply rtc_l; [apply step_open|]. eapply rtc_l; [apply (step_time 100)|].
  eapply rtc_l;
    [by eapply (step_fire (oneTab (js "TODO x") "a.md") 1); vm_compute|].
  eapply rtc_l; [apply (step_time 500)|].
  eapply rtc_l;
    [by eapply (step_fire (oneTab (js "TODO x") "a.md") 2); vm_compute|].
  eapply rtc_l;
    [by eapply (step_fire (oneTab (js "TODO x") "a.md") 3); vm_compute|].
  eapply rtc_l; [apply (step_time 500)|].
  eapply rtc_l; [by eapply (step_fire edited 2); vm_compute|].
  apply rtc_refl.
Defined.

(** X22. The monitor that runs after a refresh for the resolved file,
    polling with the workspace unchanged, finds nothing to do: the poll
    leaves the view as [update] left it and nothing is scheduled; all
    that its firing changes is its own next due time, 500 ms ahead. *)
Theorem poll_after_update_quiet ws v d r content path h tm :
  contentEl v = Some d →
  (resolveMarkdownView ws v).1 = Some r →
  editor (viewOf ws r) = Some content →
  file (viewOf ws r) = Some path →
  path ≠ EmptyString →
  timers (update ws v) !! h = Some tm →
  callback tm = PollTick (Some path) →
  pollTick ws (Some path) (update ws v) = update ws v
  ∧ fire ws h (update ws v)
    = mkView (contentEl (update ws v)) (items (update ws v))
        (currentFile (update ws v)) (updateTimeout (update ws v))
        (currentMarkdownView (update ws v)) (pollInterval (update ws v))
        (now (update ws v)) (nextHandle (update ws v))
        (<[h := mkTimer (PollTick (Some path)) (now (update ws v) + 500)]>
           (timers (update ws v))).
Proof.
  intros Hd Hr He Hf Hne Hh Hcb.
  destruct (update_resolved_shown ws v d r content path Hd Hr He Hf)
    as (_ & Hi & Hcf & Hcm).
  rewrite decide_False in Hcf by done.
  split.
  - unfold pollTick. rewrite Hcm, He, Hf, Hcf, Hi.
    rewrite bool_decide_eq_true_2 by done.
    by rewrite (proj2 (itemsChanged_false _ _) eq_refl).
  - unfold fire. rewrite Hh, Hcb. unfold pollTick. cbn [currentMarkdownView
      currentFile items]. rewrite Hcm, He, Hf, Hcf, Hi.
    rewrite bool_decide_eq_true_2 by done.
    by rewrite (proj2 (itemsChanged_false _ _) eq_refl).
Qed.

Lemma poll_after_update_quiet_witness :
  monitors (update (oneTab (js "TODO x") "a.md") (advance 500 settled))
    = {[ 2 := mkTimer (PollTick (Some "a.md")) 1100 ]}
  ∧ now (update (oneTab (js "TODO x") "a.md") (advance 500 settled)) = 1100
  ∧ (pollTick (oneTab (js "TODO x") "a.md") (Some "a.md")
       (update (oneTab (js "TODO x") "a.md") (advance 500 settled))
     = (update (oneTab (js "TODO x") "a.md") (advance 500 settled))
     ∧ fire (oneTab (js "TODO x") "a.md") 2
         (update (oneTab (js "TODO x") "a.md") (advance 500 settled))
       = mkView (contentEl (update (oneTab (js "TODO x") "a.md") (advance 500 settled)))
           (items (update (oneTab (js "TODO x") "a.md") (advance 500 settled)))
           (currentFile (update (oneTab (js "TODO x") "a.md") (advance 500 settled)))
           (updateTimeout (update (oneTab (js "TODO x") "a.md") (advance 500 settled)))
           (currentMarkdownView (update (oneTab (js "TODO x") "a.md") (advance 500 settled)))
           (pollInterval (update (oneTab (js "TODO x") "a.md") (advance 500 settled)))
           (now (update (oneTab (js "TODO x") "a.md") (advance 500 settled)))
           (nextHandle (update (oneTab (js "TODO x") "a.md") (advance 500 settled)))
           (<[2 := mkTimer (PollTick (Some "a.md"))
                     (now (update (oneTab (js "TODO x") "a.md") (advance 500 settled)) + 500)]>
              (timers (update (oneTab (js "TODO x") "a.md") (advance 500 settled))))).
Proof.
  split; [by vm_compute|]. split; [by vm_compute|].
  apply (poll_after_update_quiet (oneTab (js "TODO x") "a.md")
           (advance 500 settled) (Outline [(TODO, js "x")]) 0 (js "TODO x")
           "a.md" 2 (mkTimer (PollTick (Some "a.md")) 1100)).
  - reflexivity.
  - reflexivity.
  - reflexivity.
  - reflexivity.
  - discriminate.
  - vm_compute. reflexivity.
  - reflexivity.
Defined.

End ViewFacts.
